(** * OpenSpaceNet: option handling and detection post-processing

    A shallow embedding of [OpenSkyNetArgs.cpp] (command line, environment
    and configuration-file options read into an [OpenSkyNetArgs] object), of
    the run button of [mainwindow.cpp], and of the detection pipeline
    declared in [OpenSpaceNet.h].

    Conventions.
    - C++ [float]/[double] values are carried as rationals ([Q]); the code
      under study only stores and compares them.
    - [cv::Point], [cv::Size], [cv::Rect] hold [int]s and are carried as [Z].
    - A C++ exception is an explicit [Throw] outcome that keeps the state
      reached when it was raised. *)

From Stdlib Require Import ZArith QArith String Ascii List Lia.
From stdpp Require Import gmap strings list fin_maps sorting.
From Equations Require Import Equations.

Local Open Scope string_scope.

(** ** Strings *)

(** [boost::to_lower] in the classic locale: ASCII upper case letters are
    mapped to lower case, every other character is kept. *)
Definition to_lower_char (c : ascii) : ascii :=
  let n := nat_of_ascii c in
  if ((65 <=? n) && (n <=? 90))%nat then ascii_of_nat (n + 32) else c.

Fixpoint to_lower (s : string) : string :=
  match s with
  | EmptyString => EmptyString
  | String c r => String (to_lower_char c) (to_lower r)
  end.

(** [boost::split(out, s, is_any_of(" "), token_compress_on)]: the tokens
    between runs of spaces; a leading or trailing run yields an empty token.
    [in_sep] tells that the previous character was a space. *)
Fixpoint split_tokens (in_sep : bool) (s : string) : list string :=
  match s with
  | EmptyString => [""]
  | String c r =>
      if Ascii.eqb c " " then
        if in_sep then split_tokens true r else "" :: split_tokens true r
      else
        match split_tokens false r with
        | t :: ts => String c t :: ts
        | [] => [String c ""]
        end
  end.

Definition split (s : string) : list string := split_tokens false s.

(** [std::string::find(':') == npos] *)
Fixpoint has_colon (s : string) : bool :=
  match s with
  | EmptyString => false
  | String c r => Ascii.eqb c ":" || has_colon r
  end.

(** ** OpenCV value types *)

Record Point := mkPoint { pt_x : Z; pt_y : Z }.
Record Size := mkSize { sz_width : Z; sz_height : Z }.
Record Rect := mkRect { r_x : Z; r_y : Z; r_width : Z; r_height : Z }.
Record Rect2d := mkRect2d { rd_x : Q; rd_y : Q; rd_width : Q; rd_height : Q }.

(** ** Enumerations *)

Inductive Action := ACTION_UNKNOWN | HELP | DETECT | LANDCOVER.
Inductive Source := SOURCE_UNKNOWN | LOCAL | DGCS | EVWHS | MAPS_API.
Inductive GeometryType := POINT | POLYGON.
Inductive level_t := trace | debug | info | warning | error | fatal.

Inductive log_format := dg_short_log | dg_long_log.

(** ** Exceptions *)

Inductive exception :=
| Error (msg : string)               (* DG_ERROR_THROW / DG_CHECK *)
| bad_any_cast                       (* variable_value::as<T> on another type *)
| multiple_occurrences (opt : string)
| reading_file (path : string).

(** ** boost::program_options *)

Module po.

(** The values an option of this program can hold ([boost::any]). A switch
    declared without a value type stores the empty string. *)
Inductive any :=
| any_string (s : string)
| any_int (n : Z)
| any_float (x : Q)
| any_strings (l : list string)
| any_floats (l : list Q)
| any_Point (p : Point)
| any_Size (s : Size)
| any_Rect2d (r : Rect2d).

Record variable_value := mkValue { value : any; defaulted : bool }.

(** [variables_map]: the stored values and the set of options whose value
    is final (explicitly given in an earlier [store]). *)
Record variables_map := mkVm {
  m : gmap string variable_value;
  m_final : gset string
}.

Definition empty_vm : variables_map := mkVm ∅ ∅.

(** The result of parsing one source: option names with their values, in
    the order of appearance. *)
Definition parsed_options := list (string * any).

(** [typed_value<T>::xparse]: a vector option appends the new tokens to the
    value it already has; any other option refuses a second occurrence. *)
Definition xparse (opt : string) (old : option any) (new : any)
  : exception + any :=
  match old, new with
  | None, _ => inr new
  | Some (any_strings l), any_strings l' => inr (any_strings (l ++ l'))
  | Some (any_floats l), any_floats l' => inr (any_floats (l ++ l'))
  | Some _, _ => inl (multiple_occurrences opt)
  end.

(** First loop of [po::store]: options that are final are skipped, a
    defaulted value is erased by an explicit one, and every option assigned
    here becomes final once the whole call is done ([new_final]). *)
Fixpoint store_options (opts : parsed_options) (xm : variables_map)
    (new_final : gset string) : exception + (variables_map * gset string) :=
  match opts with
  | [] => inr (xm, new_final)
  | (name, tok) :: rest =>
      if decide (name ∈ m_final xm) then store_options rest xm new_final
      else
        let old :=
          match m xm !! name with
          | Some v => if defaulted v then None else Some (value v)
          | None => None
          end in
        match xparse name old tok with
        | inl e => inl e
        | inr v =>
            store_options rest
              (mkVm (<[name := mkValue v false]> (m xm)) (m_final xm))
              ({[name]} ∪ new_final)
        end
  end.

(** Second loop of [po::store]: options that have a default value and are
    still absent receive it, marked as defaulted. *)
Fixpoint apply_defaults (defaults : list (string * any))
    (mp : gmap string variable_value) : gmap string variable_value :=
  match defaults with
  | [] => mp
  | (key, def) :: rest =>
      apply_defaults rest
        (match mp !! key with
         | Some _ => mp
         | None => <[key := mkValue def true]> mp
         end)
  end.

Definition store (defaults : list (string * any)) (opts : parsed_options)
    (xm : variables_map) : exception + variables_map :=
  match store_options opts xm ∅ with
  | inl e => inl e
  | inr (xm', new_final) =>
      inr (mkVm (apply_defaults defaults (m xm')) (m_final xm' ∪ new_final))
  end.

End po.

Import po.

(** ** The [OpenSkyNetArgs] object

    The public option fields of the class, followed by the private members
    the reading functions use. A [unique_ptr] field is an option. Of
    [optionsDescription_] the embedding keeps what [po::store] needs: the
    options declared with a default value. Sinks are named by handles. *)

Record OpenSkyNetArgs := mkArgs {
  action : Action;
  source : Source;
  image : string;
  bbox : option Rect2d;
  token : string;
  credentials : string;
  zoom : Z;
  maxConnections : Z;
  mapId : string;
  outputFormat : string;
  outputPath : string;
  layerName : string;
  geometryType : GeometryType;
  producerInfo : bool;
  useCpu : bool;
  maxUtitilization : Q;
  modelPath : string;
  windowSize : option Size;
  confidence : Q;
  stepSize : option Point;
  pyramid : bool;
  nms : bool;
  overlap : Q;
  quiet : bool;
  optionsDescription_ : list (string * any);
  vm_ : variables_map;
  cerrSink_ : nat;
  coutSink_ : nat
}.

(** Field assignments. *)

Definition set_action (v : Action) (a : OpenSkyNetArgs) : OpenSkyNetArgs :=
  mkArgs v (source a) (image a) (bbox a) (token a) (credentials a)
    (zoom a) (maxConnections a) (mapId a) (outputFormat a) (outputPath a)
    (layerName a) (geometryType a) (producerInfo a) (useCpu a)
    (maxUtitilization a) (modelPath a) (windowSize a) (confidence a)
    (stepSize a) (pyramid a) (nms a) (overlap a) (quiet a)
    (optionsDescription_ a) (vm_ a) (cerrSink_ a) (coutSink_ a).

Definition set_source (v : Source) (a : OpenSkyNetArgs) : OpenSkyNetArgs :=
  mkArgs (action a) v (image a) (bbox a) (token a) (credentials a)
    (zoom a) (maxConnections a) (mapId a) (outputFormat a) (outputPath a)
    (layerName a) (geometryType a) (producerInfo a) (useCpu a)
    (maxUtitilization a) (modelPath a) (windowSize a) (confidence a)
    (stepSize a) (pyramid a) (nms a) (overlap a) (quiet a)
    (optionsDescription_ a) (vm_ a) (cerrSink_ a) (coutSink_ a).

Definition set_image (v : string) (a : OpenSkyNetArgs) : OpenSkyNetArgs :=
  mkArgs (action a) (source a) v (bbox a) (token a) (credentials a)
    (zoom a) (maxConnections a) (mapId a) (outputFormat a) (outputPath a)
    (layerName a) (geometryType a) (producerInfo a) (useCpu a)
    (maxUtitilization a) (modelPath a) (windowSize a) (confidence a)
    (stepSize a) (pyramid a) (nms a) (overlap a) (quiet a)
    (optionsDescription_ a) (vm_ a) (cerrSink_ a) (coutSink_ a).

Definition set_bbox (v : option Rect2d) (a : OpenSkyNetArgs) : OpenSkyNetArgs :=
  mkArgs (action a) (source a) (image a) v (token a) (credentials a)
    (zoom a) (maxConnections a) (mapId a) (outputFormat a) (outputPath a)
    (layerName a) (geometryType a) (producerInfo a) (useCpu a)
    (maxUtitilization a) (modelPath a) (windowSize a) (confidence a)
    (stepSize a) (pyramid a) (nms a) (overlap a) (quiet a)
    (optionsDescription_ a) (vm_ a) (cerrSink_ a) (coutSink_ a).

Definition set_token (v : string) (a : OpenSkyNetArgs) : OpenSkyNetArgs :=
  mkArgs (action a) (source a) (image a) (bbox a) v (credentials a)
    (zoom a) (maxConnections a) (mapId a) (outputFormat a) (outputPath a)
    (layerName a) (geometryType a) (producerInfo a) (useCpu a)
    (maxUtitilization a) (modelPath a) (windowSize a) (confidence a)
    (stepSize a) (pyramid a) (nms a) (overlap a) (quiet a)
    (optionsDescription_ a) (vm_ a) (cerrSink_ a) (coutSink_ a).

Definition set_credentials (v : string) (a : OpenSkyNetArgs) : OpenSkyNetArgs :=
  mkArgs (action a) (source a) (image a) (bbox a) (token a) v (zoom a)
    (maxConnections a) (mapId a) (outputFormat a) (outputPath a)
    (layerName a) (geometryType a) (producerInfo a) (useCpu a)
    (maxUtitilization a) (modelPath a) (windowSize a) (confidence a)
    (stepSize a) (pyramid a) (nms a) (overlap a) (quiet a)
    (optionsDescription_ a) (vm_ a) (cerrSink_ a) (coutSink_ a).

Definition set_zoom (v : Z) (a : OpenSkyNetArgs) : OpenSkyNetArgs :=
  mkArgs (action a) (source a) (image a) (bbox a) (token a)
    (credentials a) v (maxConnections a) (mapId a) (outputFormat a)
    (outputPath a) (layerName a) (geometryType a) (producerInfo a)
    (useCpu a) (maxUtitilization a) (modelPath a) (windowSize a)
    (confidence a) (stepSize a) (pyramid a) (nms a) (overlap a) (quiet a)
    (optionsDescription_ a) (vm_ a) (cerrSink_ a) (coutSink_ a).

Definition set_maxConnections (v : Z) (a : OpenSkyNetArgs) : OpenSkyNetArgs :=
  mkArgs (action a) (source a) (image a) (bbox a) (token a)
    (credentials a) (zoom a) v (mapId a) (outputFormat a) (outputPath a)
    (layerName a) (geometryType a) (producerInfo a) (useCpu a)
    (maxUtitilization a) (modelPath a) (windowSize a) (confidence a)
    (stepSize a) (pyramid a) (nms a) (overlap a) (quiet a)
    (optionsDescription_ a) (vm_ a) (cerrSink_ a) (coutSink_ a).

Definition set_mapId (v : string) (a : OpenSkyNetArgs) : OpenSkyNetArgs :=
  mkArgs (action a) (source a) (image a) (bbox a) (token a)
    (credentials a) (zoom a) (maxConnections a) v (outputFormat a)
    (outputPath a) (layerName a) (geometryType a) (producerInfo a)
    (useCpu a) (maxUtitilization a) (modelPath a) (windowSize a)
    (confidence a) (stepSize a) (pyramid a) (nms a) (overlap a) (quiet a)
    (optionsDescription_ a) (vm_ a) (cerrSink_ a) (coutSink_ a).

Definition set_outputFormat (v : string) (a : OpenSkyNetArgs) : OpenSkyNetArgs :=
  mkArgs (action a) (source a) (image a) (bbox a) (token a)
    (credentials a) (zoom a) (maxConnections a) (mapId a) v (outputPath a)
    (layerName a) (geometryType a) (producerInfo a) (useCpu a)
    (maxUtitilization a) (modelPath a) (windowSize a) (confidence a)
    (stepSize a) (pyramid a) (nms a) (overlap a) (quiet a)
    (optionsDescription_ a) (vm_ a) (cerrSink_ a) (coutSink_ a).

Definition set_outputPath (v : string) (a : OpenSkyNetArgs) : OpenSkyNetArgs :=
  mkArgs (action a) (source a) (image a) (bbox a) (token a)
    (credentials a) (zoom a) (maxConnections a) (mapId a) (outputFormat a) v
    (layerName a) (geometryType a) (producerInfo a) (useCpu a)
    (maxUtitilization a) (modelPath a) (windowSize a) (confidence a)
    (stepSize a) (pyramid a) (nms a) (overlap a) (quiet a)
    (optionsDescription_ a) (vm_ a) (cerrSink_ a) (coutSink_ a).

Definition set_layerName (v : string) (a : OpenSkyNetArgs) : OpenSkyNetArgs :=
  mkArgs (action a) (source a) (image a) (bbox a) (token a)
    (credentials a) (zoom a) (maxConnections a) (mapId a) (outputFormat a)
    (outputPath a) v (geometryType a) (producerInfo a) (useCpu a)
    (maxUtitilization a) (modelPath a) (windowSize a) (confidence a)
    (stepSize a) (pyramid a) (nms a) (overlap a) (quiet a)
    (optionsDescription_ a) (vm_ a) (cerrSink_ a) (coutSink_ a).

Definition set_geometryType (v : GeometryType) (a : OpenSkyNetArgs) : OpenSkyNetArgs :=
  mkArgs (action a) (source a) (image a) (bbox a) (token a)
    (credentials a) (zoom a) (maxConnections a) (mapId a) (outputFormat a)
    (outputPath a) (layerName a) v (producerInfo a) (useCpu a)
    (maxUtitilization a) (modelPath a) (windowSize a) (confidence a)
    (stepSize a) (pyramid a) (nms a) (overlap a) (quiet a)
    (optionsDescription_ a) (vm_ a) (cerrSink_ a) (coutSink_ a).

Definition set_producerInfo (v : bool) (a : OpenSkyNetArgs) : OpenSkyNetArgs :=
  mkArgs (action a) (source a) (image a) (bbox a) (token a)
    (credentials a) (zoom a) (maxConnections a) (mapId a) (outputFormat a)
    (outputPath a) (layerName a) (geometryType a) v (useCpu a)
    (maxUtitilization a) (modelPath a) (windowSize a) (confidence a)
    (stepSize a) (pyramid a) (nms a) (overlap a) (quiet a)
    (optionsDescription_ a) (vm_ a) (cerrSink_ a) (coutSink_ a).

Definition set_useCpu (v : bool) (a : OpenSkyNetArgs) : OpenSkyNetArgs :=
  mkArgs (action a) (source a) (image a) (bbox a) (token a)
    (credentials a) (zoom a) (maxConnections a) (mapId a) (outputFormat a)
    (outputPath a) (layerName a) (geometryType a) (producerInfo a) v
    (maxUtitilization a) (modelPath a) (windowSize a) (confidence a)
    (stepSize a) (pyramid a) (nms a) (overlap a) (quiet a)
    (optionsDescription_ a) (vm_ a) (cerrSink_ a) (coutSink_ a).

Definition set_maxUtitilization (v : Q) (a : OpenSkyNetArgs) : OpenSkyNetArgs :=
  mkArgs (action a) (source a) (image a) (bbox a) (token a)
    (credentials a) (zoom a) (maxConnections a) (mapId a) (outputFormat a)
    (outputPath a) (layerName a) (geometryType a) (producerInfo a)
    (useCpu a) v (modelPath a) (windowSize a) (confidence a) (stepSize a)
    (pyramid a) (nms a) (overlap a) (quiet a) (optionsDescription_ a)
    (vm_ a) (cerrSink_ a) (coutSink_ a).

Definition set_modelPath (v : string) (a : OpenSkyNetArgs) : OpenSkyNetArgs :=
  mkArgs (action a) (source a) (image a) (bbox a) (token a)
    (credentials a) (zoom a) (maxConnections a) (mapId a) (outputFormat a)
    (outputPath a) (layerName a) (geometryType a) (producerInfo a)
    (useCpu a) (maxUtitilization a) v (windowSize a) (confidence a)
    (stepSize a) (pyramid a) (nms a) (overlap a) (quiet a)
    (optionsDescription_ a) (vm_ a) (cerrSink_ a) (coutSink_ a).

Definition set_windowSize (v : option Size) (a : OpenSkyNetArgs) : OpenSkyNetArgs :=
  mkArgs (action a) (source a) (image a) (bbox a) (token a)
    (credentials a) (zoom a) (maxConnections a) (mapId a) (outputFormat a)
    (outputPath a) (layerName a) (geometryType a) (producerInfo a)
    (useCpu a) (maxUtitilization a) (modelPath a) v (confidence a)
    (stepSize a) (pyramid a) (nms a) (overlap a) (quiet a)
    (optionsDescription_ a) (vm_ a) (cerrSink_ a) (coutSink_ a).

Definition set_confidence (v : Q) (a : OpenSkyNetArgs) : OpenSkyNetArgs :=
  mkArgs (action a) (source a) (image a) (bbox a) (token a)
    (credentials a) (zoom a) (maxConnections a) (mapId a) (outputFormat a)
    (outputPath a) (layerName a) (geometryType a) (producerInfo a)
    (useCpu a) (maxUtitilization a) (modelPath a) (windowSize a) v
    (stepSize a) (pyramid a) (nms a) (overlap a) (quiet a)
    (optionsDescription_ a) (vm_ a) (cerrSink_ a) (coutSink_ a).

Definition set_stepSize (v : option Point) (a : OpenSkyNetArgs) : OpenSkyNetArgs :=
  mkArgs (action a) (source a) (image a) (bbox a) (token a)
    (credentials a) (zoom a) (maxConnections a) (mapId a) (outputFormat a)
    (outputPath a) (layerName a) (geometryType a) (producerInfo a)
    (useCpu a) (maxUtitilization a) (modelPath a) (windowSize a)
    (confidence a) v (pyramid a) (nms a) (overlap a) (quiet a)
    (optionsDescription_ a) (vm_ a) (cerrSink_ a) (coutSink_ a).

Definition set_pyramid (v : bool) (a : OpenSkyNetArgs) : OpenSkyNetArgs :=
  mkArgs (action a) (source a) (image a) (bbox a) (token a)
    (credentials a) (zoom a) (maxConnections a) (mapId a) (outputFormat a)
    (outputPath a) (layerName a) (geometryType a) (producerInfo a)
    (useCpu a) (maxUtitilization a) (modelPath a) (windowSize a)
    (confidence a) (stepSize a) v (nms a) (overlap a) (quiet a)
    (optionsDescription_ a) (vm_ a) (cerrSink_ a) (coutSink_ a).

Definition set_nms (v : bool) (a : OpenSkyNetArgs) : OpenSkyNetArgs :=
  mkArgs (action a) (source a) (image a) (bbox a) (token a)
    (credentials a) (zoom a) (maxConnections a) (mapId a) (outputFormat a)
    (outputPath a) (layerName a) (geometryType a) (producerInfo a)
    (useCpu a) (maxUtitilization a) (modelPath a) (windowSize a)
    (confidence a) (stepSize a) (pyramid a) v (overlap a) (quiet a)
    (optionsDescription_ a) (vm_ a) (cerrSink_ a) (coutSink_ a).

Definition set_overlap (v : Q) (a : OpenSkyNetArgs) : OpenSkyNetArgs :=
  mkArgs (action a) (source a) (image a) (bbox a) (token a)
    (credentials a) (zoom a) (maxConnections a) (mapId a) (outputFormat a)
    (outputPath a) (layerName a) (geometryType a) (producerInfo a)
    (useCpu a) (maxUtitilization a) (modelPath a) (windowSize a)
    (confidence a) (stepSize a) (pyramid a) (nms a) v (quiet a)
    (optionsDescription_ a) (vm_ a) (cerrSink_ a) (coutSink_ a).

Definition set_quiet (v : bool) (a : OpenSkyNetArgs) : OpenSkyNetArgs :=
  mkArgs (action a) (source a) (image a) (bbox a) (token a)
    (credentials a) (zoom a) (maxConnections a) (mapId a) (outputFormat a)
    (outputPath a) (layerName a) (geometryType a) (producerInfo a)
    (useCpu a) (maxUtitilization a) (modelPath a) (windowSize a)
    (confidence a) (stepSize a) (pyramid a) (nms a) (overlap a) v
    (optionsDescription_ a) (vm_ a) (cerrSink_ a) (coutSink_ a).

Definition set_optionsDescription_ (v : list (string * any)) (a : OpenSkyNetArgs) : OpenSkyNetArgs :=
  mkArgs (action a) (source a) (image a) (bbox a) (token a)
    (credentials a) (zoom a) (maxConnections a) (mapId a) (outputFormat a)
    (outputPath a) (layerName a) (geometryType a) (producerInfo a)
    (useCpu a) (maxUtitilization a) (modelPath a) (windowSize a)
    (confidence a) (stepSize a) (pyramid a) (nms a) (overlap a) (quiet a) v
    (vm_ a) (cerrSink_ a) (coutSink_ a).

Definition set_vm_ (v : variables_map) (a : OpenSkyNetArgs) : OpenSkyNetArgs :=
  mkArgs (action a) (source a) (image a) (bbox a) (token a)
    (credentials a) (zoom a) (maxConnections a) (mapId a) (outputFormat a)
    (outputPath a) (layerName a) (geometryType a) (producerInfo a)
    (useCpu a) (maxUtitilization a) (modelPath a) (windowSize a)
    (confidence a) (stepSize a) (pyramid a) (nms a) (overlap a) (quiet a)
    (optionsDescription_ a) v (cerrSink_ a) (coutSink_ a).

Definition set_cerrSink_ (v : nat) (a : OpenSkyNetArgs) : OpenSkyNetArgs :=
  mkArgs (action a) (source a) (image a) (bbox a) (token a)
    (credentials a) (zoom a) (maxConnections a) (mapId a) (outputFormat a)
    (outputPath a) (layerName a) (geometryType a) (producerInfo a)
    (useCpu a) (maxUtitilization a) (modelPath a) (windowSize a)
    (confidence a) (stepSize a) (pyramid a) (nms a) (overlap a) (quiet a)
    (optionsDescription_ a) (vm_ a) v (coutSink_ a).

Definition set_coutSink_ (v : nat) (a : OpenSkyNetArgs) : OpenSkyNetArgs :=
  mkArgs (action a) (source a) (image a) (bbox a) (token a)
    (credentials a) (zoom a) (maxConnections a) (mapId a) (outputFormat a)
    (outputPath a) (layerName a) (geometryType a) (producerInfo a)
    (useCpu a) (maxUtitilization a) (modelPath a) (windowSize a)
    (confidence a) (stepSize a) (pyramid a) (nms a) (overlap a) (quiet a)
    (optionsDescription_ a) (vm_ a) (cerrSink_ a) v.
(** ** The declared options

    The value type of every option the constructor adds to
    [optionsDescription_]; a switch holds a string. The parsers only store
    values of the declared type. *)

Inductive value_type :=
| t_string | t_int | t_float | t_strings | t_floats | t_Point | t_Size | t_Rect2d.

Definition type_of (v : any) : value_type :=
  match v with
  | any_string _ => t_string
  | any_int _ => t_int
  | any_float _ => t_float
  | any_strings _ => t_strings
  | any_floats _ => t_floats
  | any_Point _ => t_Point
  | any_Size _ => t_Size
  | any_Rect2d _ => t_Rect2d
  end.

Definition declared_options : list (string * value_type) :=
  [ ("image", t_string);
    ("service", t_string); ("token", t_string); ("credentials", t_string);
    ("zoom", t_int); ("mapId", t_string); ("num-downloads", t_int);
    ("format", t_string); ("output", t_string); ("output-layer", t_string);
    ("type", t_string); ("producer-info", t_string);
    ("cpu", t_string); ("max-utilization", t_float); ("model", t_string);
    ("window-size", t_Size);
    ("confidence", t_float); ("step-size", t_Point); ("pyramid", t_string);
    ("nms", t_floats);
    ("log", t_strings); ("quiet", t_string);
    ("config", t_strings); ("help", t_string);
    ("action", t_string); ("help-topic", t_string); ("debug", t_string);
    ("trace", t_string); ("bbox", t_Rect2d) ].

Fixpoint declared_type_in (l : list (string * value_type)) (opt : string)
  : option value_type :=
  match l with
  | [] => None
  | (k, t) :: r => if String.eqb k opt then Some t else declared_type_in r opt
  end.

Definition declared_type (opt : string) : option value_type :=
  declared_type_in declared_options opt.

(** Every stored value has the type its option was declared with. *)
Definition well_typed (vm : variables_map) : Prop :=
  ∀ k v, m vm !! k = Some v → declared_type k = Some (type_of (value v)).

#[global] Instance value_type_eq_dec : EqDecision value_type.
Proof. solve_decision. Defined.

#[global] Instance well_typed_dec (vm : variables_map) : Decision (well_typed vm).
Proof.
  change (Decision (map_Forall
            (fun k v => declared_type k = Some (type_of (value v))) (m vm))).
  apply _.
Defined.

(** ** Logging, console and program state *)

Inductive sink :=
| CerrSink (lo hi : level_t) (fmt : log_format)
| CoutSink (lo hi : level_t) (fmt : log_format)
| StreamSink (path : string) (lo hi : level_t) (fmt : log_format).

(** The sinks registered with the logging core; a handle is a position in
    [sinks] and a removed sink leaves [None] behind. [records] is what
    [OSN_LOG] wrote. *)
Record Logging := mkLogging {
  sinks : list (option sink);
  records : list (level_t * string)
}.

(** What was sent to [cout]: a usage text (for a topic, or the general one
    when [printUsage] is called without argument) or a prompt. *)
Inductive output :=
| Usage (topic : option Action)
| Text (s : string).

(** The state the member functions of [OpenSkyNetArgs] act on: the object
    itself, the logging core, the console, and the argument objects that
    [OpenSkyNet::process] was started with. *)
Record St := mkSt {
  this : OpenSkyNetArgs;
  logging : Logging;
  cout : list output;
  process_calls : list OpenSkyNetArgs
}.

Definition set_this (f : OpenSkyNetArgs → OpenSkyNetArgs) (s : St) : St :=
  mkSt (f (this s)) (logging s) (cout s) (process_calls s).

Definition set_logging (f : Logging → Logging) (s : St) : St :=
  mkSt (this s) (f (logging s)) (cout s) (process_calls s).

(** ** A state and exception monad *)

Inductive outcome (A : Type) :=
| Return (a : A) (s : St)
| Throw (e : exception) (s : St).
Arguments Return {A} a s.
Arguments Throw {A} e s.

Definition M (A : Type) : Type := St → outcome A.

Definition ret {A} (a : A) : M A := fun s => Return a s.

Definition bind {A B} (c : M A) (k : A → M B) : M B :=
  fun s => match c s with
           | Return a s' => k a s'
           | Throw e s' => Throw e s'
           end.

Definition throw {A} (e : exception) : M A := fun s => Throw e s.

Definition modify (f : OpenSkyNetArgs → OpenSkyNetArgs) : M unit :=
  fun s => Return tt (set_this f s).

Definition get {A} (f : OpenSkyNetArgs → A) : M A :=
  fun s => Return (f (this s)) s.

Notation "x <- c1 ;; c2" := (bind c1 (fun x => c2))
  (at level 100, c1 at next level, right associativity).
Notation "c1 ;; c2" := (bind c1 (fun _ => c2))
  (at level 100, right associativity).

(** [DG_CHECK(cond, msg)] *)
Definition DG_CHECK (cond : bool) (msg : string) : M unit :=
  if cond then ret tt else throw (Error msg).

Fixpoint for_each {A} (l : list A) (body : A → M unit) : M unit :=
  match l with
  | [] => ret tt
  | x :: r => body x ;; for_each r body
  end.

(** ** Logging and console primitives *)

Definition addSink (k : sink) : M nat :=
  fun s => Return (length (sinks (logging s)))
             (set_logging (fun L => mkLogging (sinks L ++ [Some k]) (records L)) s).

Definition removeSink (h : nat) : M unit :=
  fun s => Return tt
             (set_logging (fun L => mkLogging (<[h := None]> (sinks L)) (records L)) s).

Definition OSN_LOG (lvl : level_t) (msg : string) : M unit :=
  fun s => Return tt
             (set_logging (fun L => mkLogging (sinks L) (records L ++ [(lvl, msg)])) s).

Definition cout_put (o : output) : M unit :=
  fun s => Return tt (mkSt (this s) (logging s) (cout s ++ [o]) (process_calls s)).

(** ** What the program takes from its surroundings *)

(** Library calls, declarations of [OpenSkyNetArgs.h] and inputs that the
    functions below use without defining them. *)
Class Environment := {
  (** [FeatureSet::supportedFormats()] *)
  supportedFormats_ : list string;
  (** [path(p).stem().filename().string()] of Boost.Filesystem *)
  path_stem : string → string;
  (** the password typed at the prompt *)
  readMaskedInputFromConsole : string;
  (** [log::stringToLevel]: a level, or the exception it raises *)
  stringToLevel : string → exception + level_t;
  (** whether opening the file for writing fails ([ofstream::fail]) *)
  ofstream_fail : string → bool;
  (** the default of the [splitArgs] argument of [readOptional] *)
  splitArgs_default : bool;
  (** [po::parse_environment(optionsDescription_, "OSN_")] *)
  parse_environment : parsed_options;
  (** [po::parse_config_file]; [None] when the file cannot be read *)
  parse_config_file : string → option parsed_options
}.

(** * OpenSkyNetArgs.cpp *)

Section OpenSkyNetArgs.
Context `{Environment}.

(** The options the constructor declares with [default_value], taken from
    the members as they are when the object is built. *)
Definition declared_defaults (a : OpenSkyNetArgs) (MAPSAPI_MAPID : string)
  : list (string * any) :=
  [ ("zoom", any_int (zoom a));
    ("mapId", any_string MAPSAPI_MAPID);
    ("num-downloads", any_int (maxConnections a));
    ("format", any_string "shp");
    ("type", any_string "polygon");
    ("max-utilization", any_float (maxUtitilization a));
    ("confidence", any_float (confidence a)) ].

(** The constructor, on an object holding the member initialisers. *)
Definition OpenSkyNetArgs_ctor (init : OpenSkyNetArgs) (MAPSAPI_MAPID : string)
  : OpenSkyNetArgs :=
  set_optionsDescription_ (declared_defaults init MAPSAPI_MAPID) init.

Definition printUsage (topic : option Action) : M unit := cout_put (Usage topic).

(** [log::init()] registers no sink and is left out. *)
Definition setupConsoleLogging : M unit :=
  h <- addSink (CerrSink warning fatal dg_short_log) ;;
  modify (set_cerrSink_ h) ;;
  h' <- addSink (CoutSink info info dg_short_log) ;;
  modify (set_coutSink_ h').

(** [vm_.find(param)] *)
Definition find (param : string) : M (option variable_value) :=
  get (fun a => m (vm_ a) !! param).

(** [it->second.as<T>()] *)
Definition as_string (v : any) : option string :=
  match v with any_string s => Some s | _ => None end.
Definition as_int (v : any) : option Z :=
  match v with any_int n => Some n | _ => None end.
Definition as_float (v : any) : option Q :=
  match v with any_float x => Some x | _ => None end.
Definition as_strings (v : any) : option (list string) :=
  match v with any_strings l => Some l | _ => None end.
Definition as_floats (v : any) : option (list Q) :=
  match v with any_floats l => Some l | _ => None end.
Definition as_Point (v : any) : option Point :=
  match v with any_Point p => Some p | _ => None end.
Definition as_Size (v : any) : option Size :=
  match v with any_Size p => Some p | _ => None end.
Definition as_Rect2d (v : any) : option Rect2d :=
  match v with any_Rect2d p => Some p | _ => None end.

Definition as_ {T} (cast : any → option T) (v : variable_value) : M T :=
  match cast (value v) with
  | Some x => ret x
  | None => throw bad_any_cast
  end.

(** [bool readOptional(param, T& ret)] with a member as [ret]: [assign]
    is the assignment to that member. *)
Definition readOptional {T} (cast : any → option T) (param : string)
    (assign : T → OpenSkyNetArgs → OpenSkyNetArgs) : M bool :=
  it <- find param ;;
  match it with
  | Some v => x <- as_ cast v ;; modify (assign x) ;; ret true
  | None => ret false
  end.

(** [unique_ptr<T> readOptional<T>(param)], and [readOptional(param, ret)]
    with a local variable as [ret]: [Some x] stands for a non-null pointer,
    respectively for [true] with [ret = x]. *)
Definition readOptional_ptr {T} (cast : any → option T) (param : string)
  : M (option T) :=
  it <- find param ;;
  match it with
  | Some v => x <- as_ cast v ;; ret (Some x)
  | None => ret None
  end.

(** [bool readOptional(param, vector<string>& ret, bool splitArgs)] *)
Definition readOptional_strings (param : string) (splitArgs : bool)
  : M (option (list string)) :=
  it <- find param ;;
  match it with
  | Some v =>
      args <- as_ as_strings v ;;
      ret (Some (if splitArgs then flat_map split args else args))
  | None => ret None
  end.

(** [readRequired<T>(param, errorMsg, showUsage)]; [errorMsg] is [None]
    for the null pointer. *)
Definition readRequired {T} (cast : any → option T) (param : string)
    (errorMsg : option string) (showUsage : bool) : M T :=
  it <- find param ;;
  match it with
  | None =>
      (if showUsage then printUsage None else ret tt) ;;
      match errorMsg with
      | Some msg => throw (Error msg)
      | None => throw (Error ("Missing required parameter --" +:+ param +:+ "."))
      end
  | Some v => as_ cast v
  end.

Definition parseAction (str : string) : Action :=
  let str := to_lower str in
  if String.eqb str "help" then HELP
  else if String.eqb str "detect" then DETECT
  else if String.eqb str "landcover" then LANDCOVER
  else ACTION_UNKNOWN.

Definition parseService (service : string) : M Source :=
  let service := to_lower service in
  if String.eqb service "dgcs" then ret DGCS
  else if String.eqb service "evwhs" then ret EVWHS
  else if String.eqb service "maps-api" then ret MAPS_API
  else throw (Error ("Invalid --service parameter: " +:+ service)).

(** [po::store(parsed, vm_)] *)
Definition po_store (opts : parsed_options) : M unit :=
  fun s =>
    match store (optionsDescription_ (this s)) opts (vm_ (this s)) with
    | inl e => Throw e s
    | inr vm' => Return tt (set_this (set_vm_ vm') s)
    end.

(** [po::notify(vm_)]: the one notifier of this program, on [format]. *)
Definition notify : M unit :=
  it <- find "format" ;;
  match it with
  | Some (mkValue (any_string format) _) =>
      DG_CHECK (bool_decide (to_lower format ∈ supportedFormats_))
               ("Invalid output format: " +:+ format +:+ ".")
  | _ => ret tt
  end.

Definition Action_eqb (a b : Action) : bool :=
  match a, b with
  | ACTION_UNKNOWN, ACTION_UNKNOWN | HELP, HELP
  | DETECT, DETECT | LANDCOVER, LANDCOVER => true
  | _, _ => false
  end.

Definition Source_eqb (a b : Source) : bool :=
  match a, b with
  | SOURCE_UNKNOWN, SOURCE_UNKNOWN | LOCAL, LOCAL | DGCS, DGCS
  | EVWHS, EVWHS | MAPS_API, MAPS_API => true
  | _, _ => false
  end.

(** [argv] is the command line as [command_line_parser] returns it, the
    positional arguments under the names [action] and [help-topic]. *)
Definition parseArgs (argc : Z) (argv : parsed_options) : M unit :=
  (if (argc <? 2)%Z
   then printUsage None ;; throw (Error "Must have at least 1 argument.")
   else ret tt) ;;
  po_store argv ;;
  notify ;;
  po_store parse_environment ;;
  configFiles <- readOptional_strings "config" splitArgs_default ;;
  match configFiles with
  | Some configFiles =>
      for_each (rev configFiles) (fun configFile =>
        match parse_config_file configFile with
        | Some parsed => po_store parsed ;; notify
        | None => throw (reading_file configFile)
        end)
  | None => ret tt
  end ;;
  str <- readRequired as_string "action" (Some "Action must be specified.") true ;;
  modify (set_action (parseAction str)) ;;
  a <- get action ;;
  if Action_eqb a ACTION_UNKNOWN
  then printUsage None ;; throw (Error "Invalid action.")
  else ret tt.

Definition maybeDisplayHelp : M bool :=
  a <- get action ;;
  if Action_eqb a HELP then
    topicStr <- readOptional_ptr as_string "help-topic" ;;
    match topicStr with
    | Some topicStr =>
        let topic := parseAction topicStr in
        printUsage (Some topic) ;;
        DG_CHECK (negb (Action_eqb topic ACTION_UNKNOWN))
                 "Invalid help topic specified."
    | None => printUsage None
    end ;;
    ret true
  else
    topicStr <- readOptional_ptr as_string "help-topic" ;;
    match topicStr with
    | Some topicStr =>
        DG_CHECK (String.eqb (to_lower topicStr) (to_lower "help"))
                 ("Invalid argument: " +:+ topicStr) ;;
        printUsage (Some a) ;;
        ret true
    | None => ret false
    end.

(** [vm_.find(param) != end(vm_)] *)
Definition present (param : string) : M bool :=
  it <- find param ;;
  ret (match it with Some _ => true | None => false end).

Definition promptForPassword : M unit :=
  cout_put (Text "Enter your web service password: ") ;;
  let password := readMaskedInputFromConsole in
  modify (fun a => set_credentials (credentials a +:+ ":") a) ;;
  modify (fun a => set_credentials (credentials a +:+ password) a).

Definition readWebServiceArgs : M unit :=
  b <- get bbox ;;
  DG_CHECK (match b with Some _ => true | None => false end)
           "The --bbox argument is required for web services." ;;
  src <- get source ;;
  (if Source_eqb src MAPS_API
   then readOptional as_string "mapId" set_mapId ;; ret tt
   else ret tt) ;;
  tok <- readRequired as_string "token" None false ;;
  modify (set_token tok) ;;
  given <- readOptional as_string "credentials" set_credentials ;;
  cred <- get credentials ;;
  (if given && negb (has_colon cred) then promptForPassword else ret tt) ;;
  readOptional as_int "zoom" set_zoom ;;
  readOptional as_int "num-downloads" set_maxConnections ;;
  ret tt.

Definition readOutputArgs : M unit :=
  readOptional as_string "format" set_outputFormat ;;
  modify (fun a => set_outputFormat (to_lower (outputFormat a)) a) ;;
  out <- readRequired as_string "output" None false ;;
  modify (set_outputPath out) ;;
  layerSpecified <- readOptional as_string "output-layer" set_layerName ;;
  fmt <- get outputFormat ;;
  (if String.eqb fmt "shp" then
     (if layerSpecified
      then OSN_LOG warning "output-layer argument is ignored for Shapefile output."
      else ret tt) ;;
     modify (fun a => set_layerName (path_stem (outputPath a)) a)
   else if negb layerSpecified then modify (set_layerName "skynetdetects")
   else ret tt) ;;
  given <- readOptional_ptr as_string "type" ;;
  let typeStr := to_lower (match given with Some t => t | None => "polygon" end) in
  (if String.eqb typeStr "polygon" then modify (set_geometryType POLYGON)
   else if String.eqb typeStr "point" then modify (set_geometryType POINT)
   else throw (Error ("Invalid geometry type: " +:+ typeStr))) ;;
  p <- present "producer-info" ;;
  modify (set_producerInfo p).

Definition readProcessingArgs : M unit :=
  c <- present "cpu" ;;
  modify (set_useCpu c) ;;
  readOptional as_float "max-utilization" set_maxUtitilization ;;
  model <- readRequired as_string "model" None false ;;
  modify (set_modelPath model) ;;
  ws <- readOptional_ptr as_Size "window-size" ;;
  modify (set_windowSize ws).

Definition readFeatureDetectionArgs : M unit :=
  readOptional as_float "confidence" set_confidence ;;
  st <- readOptional_ptr as_Point "step-size" ;;
  modify (set_stepSize st) ;;
  p <- present "pyramid" ;;
  modify (set_pyramid p) ;;
  n <- present "nms" ;;
  if n then
    modify (set_nms true) ;;
    args <- readOptional_ptr as_floats "nms" ;;
    match args with
    | Some (x :: _) => modify (set_overlap x)
    | _ => ret tt
    end
  else ret tt.

Definition readLoggingArgs : M unit :=
  t <- present "trace" ;;
  d <- present "debug" ;;
  (if t then
     h <- get coutSink_ ;;
     removeSink h ;;
     h' <- addSink (CoutSink trace info dg_short_log) ;;
     modify (set_coutSink_ h')
   else if d then
     h <- get coutSink_ ;;
     removeSink h ;;
     h' <- addSink (CoutSink debug info dg_short_log) ;;
     modify (set_coutSink_ h')
   else ret tt) ;;
  logArgs <- readOptional_strings "log" splitArgs_default ;;
  match logArgs with
  | Some logArgs =>
      DG_CHECK (match logArgs with [] => false | _ => true end)
               "Log path must be specified" ;;
      lp <- match logArgs with
            | [] => throw (Error "Log path must be specified")
            | [p] => ret (debug, p)
            | l0 :: l1 :: _ =>
                match stringToLevel l0 with
                | inr level => ret (level, l1)
                | inl e => throw e
                end
            end ;;
      DG_CHECK (negb (ofstream_fail (snd lp)))
               ("Error opening log file " +:+ snd lp +:+ " for writing.") ;;
      addSink (StreamSink (snd lp) (fst lp) fatal dg_long_log) ;;
      ret tt
  | None => ret tt
  end.

(** [OpenSkyNet osn( *this); osn.process();] : the run is started with the
    object as it is now. *)
Definition osn_process : M unit :=
  fun s => Return tt
             (mkSt (this s) (logging s) (cout s) (process_calls s ++ [this s])).

Definition readArgs : M unit :=
  b <- readOptional_ptr as_Rect2d "bbox" ;;
  modify (set_bbox b) ;;
  service <- readOptional_ptr as_string "service" ;;
  match service with
  | Some service =>
      src <- parseService service ;;
      modify (set_source src) ;;
      readWebServiceArgs
  | None =>
      img <- readRequired as_string "image"
               (Some "No input specified, either --service or --image argument must be present.")
               false ;;
      modify (set_image img) ;;
      modify (set_source LOCAL)
  end ;;
  readProcessingArgs ;;
  readOutputArgs ;;
  readFeatureDetectionArgs ;;
  readLoggingArgs ;;
  q <- present "quiet" ;;
  (if q then
     h <- get coutSink_ ;;
     removeSink h ;;
     l <- present "log" ;;
     (if l then h' <- get cerrSink_ ;; removeSink h' else ret tt) ;;
     modify (set_quiet true)
   else ret tt) ;;
  osn_process.

Definition parseArgsAndProcess (argc : Z) (argv : parsed_options) : M unit :=
  setupConsoleLogging ;;
  parseArgs argc argv ;;
  shown <- maybeDisplayHelp ;;
  if shown then ret tt else readArgs.

End OpenSkyNetArgs.

(** * OpenSpaceNet: the detection pipeline

    [OpenSpaceNet.h] declares the members below; their bodies
    ([OpenSpaceNet.cpp]) and the non-maximum suppression they call are not
    part of the sources at hand, so each definition of this module follows
    the specification. *)

Module OpenSpaceNet.

(** Modelled from the spec: a prediction of the inference client, a
    (label, confidence) pair ([classification::Prediction], whose
    declaration is missing). *)
Record Prediction := mkPrediction { pr_label : string; pr_confidence : Q }.

(** Modelled from the spec: the producer metadata attributes (tool name,
    version, operator) of [createFeatureFields], whose body is missing. *)
Record ProducerInfo := mkProducer {
  tool_name : string;
  tool_version : string;
  operator : string
}.

(** Modelled from the spec: the geometry of a GeoFeature, a point or a
    polygon in the image's spatial reference (the vector types of the
    feature set are missing). *)
Inductive Geometry :=
| GeoPoint (p : Q * Q)
| GeoPolygon (ring : list (Q * Q)).

(** Modelled from the spec: a GeoFeature, a geometry with the attributes
    label, confidence and optional producer metadata; it keeps the window
    rectangle that non-maximum suppression compares (the feature type of
    the feature set is missing). *)
Record GeoFeature := mkFeature {
  f_window : Rect;
  f_geometry : Geometry;
  f_label : string;
  f_confidence : Q;
  f_producer : option ProducerInfo
}.

Section Pipeline.

(** The pixel to geographic transform of the opened image source
    ([pixelToLL_]) and the metadata of this build and user. *)
Variable pixelToLL_ : Q * Q → Q * Q.
Variable producer : ProducerInfo.

(** Modelled from the spec: the attributes of a feature
    ([createFeatureFields], body missing): producer metadata is attached
    when producer-info is enabled. *)
Definition createFeatureFields (args_ : OpenSkyNetArgs) : option ProducerInfo :=
  if producerInfo args_ then Some producer else None.

(** Modelled from the spec: the geometry of section 4.4 (part of
    [addFeature], body missing): the window centre for "point", the four
    corners mapped one by one for "polygon". *)
Definition window_geometry (args_ : OpenSkyNetArgs) (window : Rect) : Geometry :=
  let x := inject_Z (r_x window) in
  let y := inject_Z (r_y window) in
  let w := inject_Z (r_width window) in
  let h := inject_Z (r_height window) in
  match geometryType args_ with
  | POINT => GeoPoint (pixelToLL_ (x + w / 2, y + h / 2)%Q)
  | POLYGON =>
      GeoPolygon (map pixelToLL_ [(x, y); (x + w, y); (x + w, y + h); (x, y + h)]%Q)
  end.

(** Modelled from the spec: [addFeature] (body missing). Of the predictions
    for a window, those below the configured confidence threshold are
    discarded; each other one is appended to the feature collection as a
    geo-referenced feature. *)
Definition addFeature (args_ : OpenSkyNetArgs) (window : Rect)
    (predictions : list Prediction) (featureSet_ : list GeoFeature)
  : list GeoFeature :=
  featureSet_ ++
  map (fun p => mkFeature window (window_geometry args_ window)
                  (pr_label p) (pr_confidence p) (createFeatureFields args_))
      (filter (fun p => Qle_bool (confidence args_) (pr_confidence p) = true)
              predictions).

End Pipeline.

(** ** Non-maximum suppression *)

(** Modelled from the spec: the area of a window rectangle and of the
    intersection of two of them, for the overlap ratio of section 4.5. *)
Definition area (r : Rect) : Z := (r_width r * r_height r)%Z.

(** Modelled from the spec: the area two window rectangles share. *)
Definition intersection_area (a b : Rect) : Z :=
  let w := (Z.min (r_x a + r_width a) (r_x b + r_width b) - Z.max (r_x a) (r_x b))%Z in
  let h := (Z.min (r_y a + r_height a) (r_y b + r_height b) - Z.max (r_y a) (r_y b))%Z in
  if ((0 <? w) && (0 <? h))%Z then (w * h)%Z else 0%Z.

(** Modelled from the spec: the overlap ratio of two window rectangles,
    intersection over union (the suppression routine is missing). *)
Definition iou (a b : Rect) : Q :=
  let i := intersection_area a b in
  (inject_Z i / inject_Z (area a + area b - i))%Q.

(** Modelled from the spec: the overlap ratio of [c] with the accepted
    feature [a] exceeds the threshold [t]. *)
Definition exceeds (t : Q) (a c : GeoFeature) : bool :=
  negb (Qle_bool (iou (f_window a) (f_window c)) t).

(** Modelled from the spec: the sort by descending confidence of section
    4.5, by insertion; features of equal confidence keep their order. *)
Fixpoint insert_desc (x : GeoFeature) (l : list GeoFeature) : list GeoFeature :=
  match l with
  | [] => [x]
  | y :: r =>
      if Qle_bool (f_confidence y) (f_confidence x) then x :: l
      else y :: insert_desc x r
  end.

(** Modelled from the spec: the candidates by descending confidence. *)
Definition sort_desc (l : list GeoFeature) : list GeoFeature :=
  foldr insert_desc [] l.

(** Modelled from the spec: the loop of section 4.5 on sorted candidates:
    take the first remaining candidate, accept it, discard every remaining
    candidate whose overlap with it exceeds the threshold, repeat. *)
Equations select (t : Q) (cands : list GeoFeature) : list GeoFeature
  by wf (length cands) lt :=
select t [] := [];
select t (a :: rest) :=
  a :: select t (filter (fun c => exceeds t a c = false) rest).
Next Obligation.
  simpl. apply Nat.lt_succ_r, length_filter.
Qed.

(** Modelled from the spec: suppression within the candidates of one
    label: sort, then run the loop. *)
Definition suppress_label (t : Q) (cands : list GeoFeature) : list GeoFeature :=
  select t (sort_desc cands).

(** Modelled from the spec: the labels that occur, each once (suppression
    operates independently per label). *)
Definition labels (features : list GeoFeature) : list string :=
  remove_dups (map f_label features).

(** Modelled from the spec: [suppress(features, overlapThreshold)] of
    section 4.5, independently per label. *)
Definition suppress (features : list GeoFeature) (overlapThreshold : Q)
  : list GeoFeature :=
  flat_map
    (fun l => suppress_label overlapThreshold
                (filter (fun f => f_label f = l) features))
    (labels features).

Section Run.
Variable pixelToLL_ : Q * Q → Q * Q.
Variable producer : ProducerInfo.

(** Modelled from the spec: the run's feature collection ([process], body
    missing): every window's predictions are added in turn, then
    suppression runs over the whole collection when it is enabled. *)
Definition process (args_ : OpenSkyNetArgs)
    (windows : list (Rect * list Prediction)) : list GeoFeature :=
  let collected :=
    fold_left (fun fs wp => addFeature pixelToLL_ producer args_ (fst wp) (snd wp) fs)
              windows [] in
  if nms args_ then suppress collected (overlap args_) else collected.

End Run.

(** Modelled from the spec: the step size used for window planning (the
    member [stepSize_], set in the missing [OpenSpaceNet.cpp]): the
    configured one, or the base-two logarithm of the window's largest
    dimension in both directions. Pixel steps are integers: the logarithm
    is rounded down. *)
Definition stepSize_ (args_ : OpenSkyNetArgs) (windowSize_ : Size) : Point :=
  match stepSize args_ with
  | Some p => p
  | None =>
      let s := Z.log2 (Z.max (sz_width windowSize_) (sz_height windowSize_)) in
      mkPoint s s
  end.

End OpenSpaceNet.

(** * The main window ([mainwindow.cpp]) *)

(** The widgets of the main window that the run button reads
    ([mainwindow.cpp]); spin boxes for reals hold rationals. *)
Record Ui := mkUi {
  modeComboBox : string;
  imageSourceComboBox : string;
  localImageFileLineEdit : string;
  modelFileLineEdit : string;
  confidenceSpinBox : Q;
  stepSizeSpinBox : Z;
  pyramidCheckBox : bool;
  nmsCheckBox : bool;
  nmsSpinBox : Q;
  outputFormatComboBox : string;
  geometryTypeComboBox : string;
  outputLocationLineEdit : string;
  outputLayerLineEdit : string;
  producerInfoCheckBox : bool;
  processingModeComboBox : string;
  maxUtilizationSpinBox : Q
}.

(** [MainWindow::on_runPushButton_clicked], acting on [osnArgs]. The
    comparison [osnArgs.outputFormat == "shp"] has no effect. The echo of
    the values on [std::cout] and the message box are left out, as are the
    bounding box and window size widgets, whose values are read and not
    used. *)
Definition on_runPushButton_clicked (ui : Ui) : M unit :=
  (if String.eqb (modeComboBox ui) "Detect" then modify (set_action DETECT)
   else if String.eqb (modeComboBox ui) "Landcover" then modify (set_action LANDCOVER)
   else modify (set_action ACTION_UNKNOWN)) ;;
  (if String.eqb (imageSourceComboBox ui) "Local Image File"
   then modify (set_source LOCAL) else ret tt) ;;
  modify (set_image (localImageFileLineEdit ui)) ;;
  modify (set_modelPath (modelFileLineEdit ui)) ;;
  modify (set_confidence (confidenceSpinBox ui)) ;;
  modify (set_stepSize (Some (mkPoint (stepSizeSpinBox ui) (stepSizeSpinBox ui)))) ;;
  (if pyramidCheckBox ui then modify (set_pyramid true)
   else modify (set_pyramid false)) ;;
  (if nmsCheckBox ui
   then modify (set_nms true) ;; modify (set_overlap (nmsSpinBox ui))
   else modify (set_nms false)) ;;
  modify (set_bbox None) ;;
  (if String.eqb (outputFormatComboBox ui) "Shapefile" then ret tt else ret tt) ;;
  (if String.eqb (geometryTypeComboBox ui) "Polygon"
   then modify (set_geometryType POLYGON)
   else modify (set_geometryType POINT)) ;;
  modify (set_outputPath (outputLocationLineEdit ui)) ;;
  modify (set_layerName (outputLayerLineEdit ui)) ;;
  (if producerInfoCheckBox ui then modify (set_producerInfo true)
   else modify (set_producerInfo false)) ;;
  (if String.eqb (processingModeComboBox ui) "GPU" then modify (set_useCpu false)
   else modify (set_useCpu true)) ;;
  modify (set_maxUtitilization (maxUtilizationSpinBox ui)) ;;
  modify (set_windowSize None) ;;
  osn_process.

(** * Notions used in the statements *)

(** The value stored for an option, if any. *)
Definition given (s : St) (k : string) : option any :=
  value <$> m (vm_ (this s)) !! k.

Definition is_present (s : St) (k : string) : bool :=
  match m (vm_ (this s)) !! k with Some _ => true | None => false end.

(** The geometry type a lower-case type name stands for. *)
Definition geometry_of (typeStr : string) : option GeometryType :=
  if String.eqb typeStr "polygon" then Some POLYGON
  else if String.eqb typeStr "point" then Some POINT
  else None.

(** The tokens of one option in a parsed source. *)
Definition occurrences (k : string) (opts : list (string * any))
  : list (string * any) :=
  filter (fun o => fst o = k) opts.

(** A computation leaves the stored options and the started runs alone,
    whether it returns or throws. *)
Definition frame {A} (c : M A) : Prop :=
  ∀ s, match c s with
       | Return _ s' | Throw _ s' =>
           vm_ (this s') = vm_ (this s) ∧ process_calls s' = process_calls s
       end.

(** The source a lower-case service name stands for. *)
Definition service_of (service : string) : option Source :=
  if String.eqb service "dgcs" then Some DGCS
  else if String.eqb service "evwhs" then Some EVWHS
  else if String.eqb service "maps-api" then Some MAPS_API
  else None.

(** What the reading steps after the input options leave alone. *)
Definition input_kept (s s' : St) : Prop :=
  vm_ (this s') = vm_ (this s)
  ∧ process_calls s' = process_calls s
  ∧ bbox (this s') = bbox (this s)
  ∧ source (this s') = source (this s)
  ∧ image (this s') = image (this s).

(** An option whose value is final, and an option that no source has set
    yet (it is absent or holds its default). *)
Definition fixed (k : string) (x : variable_value) (xm : variables_map) : Prop :=
  k ∈ m_final xm ∧ m xm !! k = Some x.

Definition unset (k : string) (xm : variables_map) : Prop :=
  (k ∉ m_final xm) ∧ (∀ x, m xm !! k = Some x → defaulted x = true).

(** Loading one configuration file: the body of the loop of [parseArgs]. *)
Definition load `{Environment} (configFile : string) : M unit :=
  match parse_config_file configFile with
  | Some parsed => po_store parsed ;; notify
  | None => throw (reading_file configFile)
  end.

(** Descending confidence. *)
Definition desc (l : list OpenSpaceNet.GeoFeature) : Prop :=
  StronglySorted
    (fun a b => Qle_bool (OpenSpaceNet.f_confidence b) (OpenSpaceNet.f_confidence a) = true)
    l.

(** ** A concrete setting for the examples *)

Definition example_environment : Environment := {|
  supportedFormats_ := ["shp"; "geojson"; "kml"];
  path_stem := fun p => if String.eqb p "out/roads.shp" then "roads" else p;
  readMaskedInputFromConsole := "secret";
  stringToLevel := fun l =>
    if String.eqb (to_lower l) "info" then inr info
    else inl (Error "Invalid log level");
  ofstream_fail := fun _ => false;
  splitArgs_default := true;
  parse_environment := [];
  parse_config_file := fun f =>
    if String.eqb f "a.cfg" then
      Some [("confidence", any_float (1 # 10)); ("zoom", any_int 3)]
    else if String.eqb f "b.cfg" then
      Some [("zoom", any_int 5); ("type", any_string "point")]
    else if String.eqb f "c.cfg" then
      Some [("pyramid", any_string "")]
    else None
|}.

(** A freshly constructed object. *)
Definition example_init : OpenSkyNetArgs :=
  OpenSkyNetArgs_ctor
    (mkArgs ACTION_UNKNOWN SOURCE_UNKNOWN "" None "" "" 18 10 "digitalglobe"
       "shp" "" "" POLYGON false false 95 "" None 95 None false false 30 false
       [] empty_vm 0%nat 0%nat)
    "digitalglobe".

Definition example_state (a : OpenSkyNetArgs) : St :=
  mkSt a (mkLogging [] []) [] [].

(** The object holding the given options. *)
Definition with_options (opts : list (string * any)) : St :=
  example_state
    (set_vm_ (mkVm (list_to_map (map (fun o => (fst o, mkValue (snd o) false)) opts)) ∅)
       example_init).

(** A local image, a model and a shapefile output, with suppression at an
    overlap threshold of 3/2, a layer name, producer info and a type. *)
Definition example_local : St :=
  with_options
    [ ("image", any_string "scene.tif");
      ("model", any_string "cars.gbdxm");
      ("output", any_string "out/roads.shp");
      ("output-layer", any_string "cars");
      ("type", any_string "Point");
      ("producer-info", any_string "");
      ("nms", any_floats [3 # 2]) ].

(** The same output written as GeoJSON, without layer name. *)
Definition example_geojson : St :=
  with_options
    [ ("image", any_string "scene.tif");
      ("model", any_string "cars.gbdxm");
      ("format", any_string "GeoJSON");
      ("output", any_string "out/roads.geojson") ].

(** A web service without bounding box. *)
Definition example_web : St :=
  with_options
    [ ("service", any_string "DGCS");
      ("model", any_string "cars.gbdxm");
      ("output", any_string "out/roads.shp") ].

(** A command line for a detection run with an overlap threshold of 3/2. *)
Definition example_command_line : parsed_options :=
  [ ("action", any_string "detect");
    ("image", any_string "scene.tif");
    ("model", any_string "cars.gbdxm");
    ("output", any_string "out/roads.shp");
    ("nms", any_floats [3 # 2]) ].

(** A command line that sets the confidence and lists three configuration
    files. *)
Definition example_config_line : parsed_options :=
  [ ("action", any_string "detect");
    ("confidence", any_float (1 # 2));
    ("config", any_strings ["a.cfg"; "b.cfg"; "c.cfg"]) ].

(** ** Further notions *)

(** The started runs are as before. *)
Definition runs_kept {A} (c : M A) : Prop :=
  ∀ s, match c s with
       | Return _ s' | Throw _ s' => process_calls s' = process_calls s
       end.

(** On return exactly one run was started, with the object as it is at the
    end; on a failure none was. *)
Definition ends_with_run {A} (c : M A) : Prop :=
  ∀ s, match c s with
       | Return _ s' => process_calls s' = (process_calls s ++ [this s'])%list
       | Throw _ s' => process_calls s' = process_calls s
       end.

(** The computation leaves the member (or any function of the object) [f]
    as it was, whether it returns or throws. *)
Definition keeps {A X} (f : OpenSkyNetArgs → X) (c : M A) : Prop :=
  ∀ s, match c s with
       | Return _ s' | Throw _ s' => f (this s') = f (this s)
       end.

(** Every option of a parsed source has a value of its declared type. *)
Definition typed_options (opts : list (string * any)) : Prop :=
  Forall (fun o => declared_type (fst o) = Some (type_of (snd o))) opts.

(** The console level asked for by [trace] and [debug]. *)
Definition console_level (s : St) : option level_t :=
  if is_present s "trace" then Some trace
  else if is_present s "debug" then Some debug
  else None.

(** The string holds a space. *)
Fixpoint has_space (s : string) : bool :=
  match s with
  | EmptyString => false
  | String c r => Ascii.eqb c " " || has_space r
  end.

(** The example setting with [OSN_ZOOM=7] in the environment. *)
Definition example_environment_zoom : Environment := {|
  supportedFormats_ := @supportedFormats_ example_environment;
  path_stem := @path_stem example_environment;
  readMaskedInputFromConsole := @readMaskedInputFromConsole example_environment;
  stringToLevel := @stringToLevel example_environment;
  ofstream_fail := @ofstream_fail example_environment;
  splitArgs_default := @splitArgs_default example_environment;
  parse_environment := [("zoom", any_int 7)];
  parse_config_file := @parse_config_file example_environment
|}.

(** A web service with bounding box, token and a user name. *)
Definition example_web_user : St :=
  with_options
    [ ("service", any_string "maps-api");
      ("bbox", any_Rect2d (mkRect2d 0 0 1 1));
      ("token", any_string "abc");
      ("credentials", any_string "user") ].

(** The same without token. *)
Definition example_web_no_token : St :=
  with_options
    [ ("service", any_string "maps-api");
      ("bbox", any_Rect2d (mkRect2d 0 0 1 1)) ].

(** Only an image. *)
Definition example_image_only : St :=
  with_options [ ("image", any_string "scene.tif") ].

(** Console at trace and debug, and a log file with a level. *)
Definition example_trace_debug : St :=
  with_options [ ("trace", any_string ""); ("debug", any_string "") ].

Definition example_log : St :=
  with_options [ ("log", any_strings ["info run.log"]) ].

Import OpenSpaceNet.


(** * Properties of option reading *)

#[local] Arguments String.eqb : simpl never.
#[local] Arguments to_lower : simpl never.
#[local] Arguments String.append : simpl never.
#[local] Arguments readWebServiceArgs : simpl never.
#[local] Arguments readProcessingArgs : simpl never.
#[local] Arguments readOutputArgs : simpl never.
#[local] Arguments readFeatureDetectionArgs : simpl never.
#[local] Arguments readLoggingArgs : simpl never.
#[local] Arguments osn_process : simpl never.

(** Case analysis on a stored option of a well-typed map: only the
    declared type remains. *)
Ltac typed Hwt k :=
  let E := fresh "E" in
  let Ht := fresh "Ht" in
  destruct (m (vm_ _) !! k) as [[[] ?]|] eqn:E;
  [ pose proof (Hwt k _ E) as Ht; try discriminate Ht .. | ].

(** One step of symbolic execution of the monad. *)
Ltac run :=
  unfold readOptional, readOptional_ptr, readOptional_strings, readRequired,
    present, find, get, bind, ret, modify, as_, throw, DG_CHECK, OSN_LOG,
    addSink, removeSink, cout_put, printUsage;
  cbn.

(** Reuse what is known about a stored option when it is read again. *)
Ltac relook :=
  repeat match goal with
         | E : m (vm_ ?a) !! ?k = _ |- context [m (vm_ ?a) !! ?k] =>
             rewrite E; run
         end.

Section Reading.
Context `{Environment}.

Lemma readProcessingArgs_returns (s : St) (model : string) (d : bool) :
  well_typed (vm_ (this s)) →
  m (vm_ (this s)) !! "model" = Some (mkValue (any_string model) d) →
  readProcessingArgs s =
  Return tt
    (set_this (fun a =>
       set_windowSize (given s "window-size" ≫= as_Size)
         (set_modelPath model
           (set_maxUtitilization
              (default (maxUtitilization a) (given s "max-utilization" ≫= as_float))
              (set_useCpu (is_present s "cpu") a)))) s).
Proof.
  intros Hwt Hm. unfold given, is_present. destruct s as [a L c pc]. cbn in *.
  unfold readProcessingArgs. run.
  destruct (m (vm_ a) !! "cpu"); run.
  all: typed Hwt "max-utilization"; run; rewrite Hm; run.
  all: typed Hwt "window-size"; run; reflexivity.
Qed.

Lemma readFeatureDetectionArgs_returns (s : St) :
  well_typed (vm_ (this s)) →
  readFeatureDetectionArgs s =
  Return tt
    (set_this (fun a =>
       let a1 :=
         set_pyramid (is_present s "pyramid")
           (set_stepSize (given s "step-size" ≫= as_Point)
              (set_confidence
                 (default (confidence a) (given s "confidence" ≫= as_float)) a)) in
       match given s "nms" with
       | Some v =>
           set_overlap
             (match as_floats v with Some (x :: _) => x | _ => overlap a end)
             (set_nms true a1)
       | None => a1
       end) s).
Proof.
  intros Hwt. unfold given, is_present. destruct s as [a L c pc]. cbn in *.
  unfold readFeatureDetectionArgs. run.
  typed Hwt "confidence"; run.
  all: typed Hwt "step-size"; run.
  all: destruct (m (vm_ a) !! "pyramid"); run.
  all: typed Hwt "nms"; run; relook; try reflexivity.
  all: destruct l; reflexivity.
Qed.

Lemma readOutputArgs_returns (s : St) (out : string) (d : bool) (g : GeometryType) :
  well_typed (vm_ (this s)) →
  m (vm_ (this s)) !! "output" = Some (mkValue (any_string out) d) →
  geometry_of (to_lower (default "polygon" (given s "type" ≫= as_string))) = Some g →
  let fmt :=
    to_lower (default (outputFormat (this s)) (given s "format" ≫= as_string)) in
  let shp := String.eqb fmt "shp" in
  let layer :=
    if shp then path_stem out
    else default "skynetdetects" (given s "output-layer" ≫= as_string) in
  let warn :=
    if shp && is_present s "output-layer"
    then [(warning, "output-layer argument is ignored for Shapefile output.")]
    else [] in
  readOutputArgs s =
  Return tt
    (mkSt (set_producerInfo (is_present s "producer-info")
            (set_geometryType g
              (set_layerName layer
                (set_outputPath out (set_outputFormat fmt (this s))))))
          (mkLogging (sinks (logging s)) (records (logging s) ++ warn))
          (cout s) (process_calls s)).
Proof.
  intros Hwt Hout Hg. unfold given, is_present, geometry_of in *.
  destruct s as [a L c pc]. cbn in *.
  unfold readOutputArgs. run.
  typed Hwt "format"; run; relook.
  all: typed Hwt "output-layer"; run.
  all: destruct (String.eqb (to_lower _) "shp") eqn:Eshp; run.
  all: typed Hwt "type"; run; cbn in Hg.
  all: destruct (String.eqb (to_lower _) "polygon") eqn:Epoly;
       [| destruct (String.eqb (to_lower _) "point") eqn:Epoint ];
       try discriminate Hg.
  all: injection Hg as <-; run.
  all: destruct (m (vm_ a) !! "producer-info"); run.
  all: destruct L; cbn; rewrite ?app_nil_r; reflexivity.
Qed.

Lemma readOutputArgs_invalid_type (s : St) (out : string) (d : bool) :
  well_typed (vm_ (this s)) →
  m (vm_ (this s)) !! "output" = Some (mkValue (any_string out) d) →
  geometry_of (to_lower (default "polygon" (given s "type" ≫= as_string))) = None →
  ∃ s', readOutputArgs s =
        Throw (Error ("Invalid geometry type: " +:+
                      to_lower (default "polygon" (given s "type" ≫= as_string)))) s'
        ∧ vm_ (this s') = vm_ (this s)
        ∧ process_calls s' = process_calls s.
Proof.
  intros Hwt Hout Hg. unfold given, is_present, geometry_of in *.
  destruct s as [a L c pc]. cbn in *.
  unfold readOutputArgs. run.
  typed Hwt "format"; run; relook.
  all: typed Hwt "output-layer"; run.
  all: destruct (String.eqb (to_lower _) "shp") eqn:Eshp; run.
  all: typed Hwt "type"; run; cbn in Hg.
  all: destruct (String.eqb (to_lower _) "polygon") eqn:Epoly;
       [| destruct (String.eqb (to_lower _) "point") eqn:Epoint ];
       try discriminate Hg.
  all: eexists; split; [reflexivity | split; reflexivity].
Qed.

Lemma readLoggingArgs_returns (s : St) :
  m (vm_ (this s)) !! "log" = None →
  ∃ s', readLoggingArgs s = Return tt s'
        ∧ this s' = set_coutSink_ (coutSink_ (this s')) (this s)
        ∧ cout s' = cout s
        ∧ process_calls s' = process_calls s.
Proof.
  intros Hlog. destruct s as [a L c pc]. cbn in *.
  unfold readLoggingArgs. run.
  destruct (m (vm_ a) !! "trace"); run;
    [| destruct (m (vm_ a) !! "debug"); run ].
  all: relook.
  all: eexists; split; [reflexivity |]; cbn.
  all: destruct a; repeat split; reflexivity.
Qed.

(** ** Frame properties *)

Lemma frame_ret {A} (a : A) : frame (ret a).
Proof. intros s. by cbn. Qed.

Lemma frame_throw {A} (e : exception) : frame (@throw A e).
Proof. intros s. by cbn. Qed.

Lemma frame_bind {A B} (c : M A) (k : A → M B) :
  frame c → (∀ a, frame (k a)) → frame (bind c k).
Proof.
  intros Hc Hk s. unfold bind. specialize (Hc s).
  destruct (c s) as [a s1|e s1]; [| done].
  specialize (Hk a s1). destruct Hc as [Hv Hp].
  destruct (k a s1); by rewrite <- Hv, <- Hp.
Qed.

Lemma frame_get {A} (f : OpenSkyNetArgs → A) : frame (get f).
Proof. intros s. by cbn. Qed.

Lemma frame_modify (f : OpenSkyNetArgs → OpenSkyNetArgs) :
  (∀ a, vm_ (f a) = vm_ a) → frame (modify f).
Proof. intros Hf s. cbn. by rewrite Hf. Qed.

Lemma frame_state {A} (c : M A) :
  (∀ s, ∃ a s', c s = Return a s' ∧ this s' = this s
                ∧ process_calls s' = process_calls s) →
  frame c.
Proof. intros Hc s. destruct (Hc s) as (a & s' & -> & -> & ->). done. Qed.

Lemma frame_if {A} (b : bool) (c1 c2 : M A) :
  frame c1 → frame c2 → frame (if b then c1 else c2).
Proof. by destruct b. Qed.

(** Decompose a computation into framed primitives. *)
Ltac framed :=
  repeat first
    [ apply frame_ret
    | apply frame_throw
    | apply frame_get
    | apply frame_modify; intros []; reflexivity
    | apply frame_bind; [| intros ?]
    | apply frame_if
    | apply frame_state; intros []; cbn; by eauto
    | match goal with
      | |- frame (match ?x with _ => _ end) => destruct x
      end ].

Lemma frame_find (k : string) : frame (find k).
Proof. unfold find. framed. Qed.

Lemma frame_as_ {T} (cast : any → option T) (v : variable_value) :
  frame (as_ cast v).
Proof. unfold as_. framed. Qed.

Lemma frame_DG_CHECK (b : bool) (msg : string) : frame (DG_CHECK b msg).
Proof. unfold DG_CHECK. framed. Qed.

Lemma frame_printUsage (t : option Action) : frame (printUsage t).
Proof. unfold printUsage, cout_put. framed. Qed.

Lemma frame_readOptional {T} (cast : any → option T) (k : string)
    (assign : T → OpenSkyNetArgs → OpenSkyNetArgs) :
  (∀ x a, vm_ (assign x a) = vm_ a) → frame (readOptional cast k assign).
Proof.
  intros Ha. unfold readOptional.
  apply frame_bind; [apply frame_find | intros [v|]; [| framed]].
  apply frame_bind; [apply frame_as_ | intros x].
  apply frame_bind; [by apply frame_modify | intros _; framed].
Qed.

Lemma frame_readOptional_ptr {T} (cast : any → option T) (k : string) :
  frame (readOptional_ptr cast k).
Proof.
  unfold readOptional_ptr.
  apply frame_bind; [apply frame_find | intros [v|]; [| framed]].
  apply frame_bind; [apply frame_as_ | intros x; framed].
Qed.

Lemma frame_readRequired {T} (cast : any → option T) (k : string)
    (msg : option string) (u : bool) :
  frame (readRequired cast k msg u).
Proof.
  unfold readRequired.
  apply frame_bind; [apply frame_find | intros [v|]; [apply frame_as_ |]].
  apply frame_bind; [destruct u; [apply frame_printUsage | framed] |].
  intros _. framed.
Qed.

Lemma frame_present (k : string) : frame (present k).
Proof. unfold present. apply frame_bind; [apply frame_find | intros ?; framed]. Qed.

Lemma frame_parseService (service : string) : frame (parseService service).
Proof. unfold parseService. framed. Qed.

Lemma frame_promptForPassword : frame promptForPassword.
Proof. unfold promptForPassword, cout_put. framed. Qed.

Lemma frame_readWebServiceArgs : frame readWebServiceArgs.
Proof.
  unfold readWebServiceArgs.
  repeat first
    [ apply frame_DG_CHECK | apply frame_readRequired | apply frame_promptForPassword
    | apply frame_readOptional; intros ? []; reflexivity
    | apply frame_get | apply frame_ret
    | apply frame_modify; intros []; reflexivity
    | apply frame_bind; [| intros ?] | apply frame_if ].
Qed.

Lemma frame_readProcessingArgs : frame readProcessingArgs.
Proof.
  unfold readProcessingArgs.
  repeat first
    [ apply frame_present | apply frame_readRequired | apply frame_readOptional_ptr
    | apply frame_readOptional; intros ? []; reflexivity
    | apply frame_modify; intros []; reflexivity
    | apply frame_bind; [| intros ?] ].
Qed.

(** ** Failures before the run is started *)

Lemma throws_bind {A B} (c : M A) (k : A → M B) (s : St) :
  (∃ e s', c s = Throw e s' ∧ process_calls s' = process_calls s) →
  ∃ e s', bind c k s = Throw e s' ∧ process_calls s' = process_calls s.
Proof. intros (e & s' & Hc & Hp). exists e, s'. unfold bind. by rewrite Hc. Qed.

Lemma throws_bind_frame {A B} (c : M A) (k : A → M B) (s : St) :
  frame c →
  (∀ a s1, vm_ (this s1) = vm_ (this s) →
           ∃ e s', k a s1 = Throw e s' ∧ process_calls s' = process_calls s1) →
  ∃ e s', bind c k s = Throw e s' ∧ process_calls s' = process_calls s.
Proof.
  intros Hc Hk. unfold bind. specialize (Hc s).
  destruct (c s) as [a s1|e s1].
  - destruct Hc as [Hv Hp]. destruct (Hk a s1 Hv) as (e & s' & -> & Hp').
    exists e, s'. split; [done | congruence].
  - exists e, s1. by destruct Hc.
Qed.

Lemma readOutputArgs_throws (s : St) (t : string) (dt : bool) :
  m (vm_ (this s)) !! "type" = Some (mkValue (any_string t) dt) →
  geometry_of (to_lower t) = None →
  ∃ e s', readOutputArgs s = Throw e s' ∧ process_calls s' = process_calls s.
Proof.
  intros Ht Hg. unfold geometry_of in Hg.
  destruct s as [a L c pc]. cbn in *.
  unfold readOutputArgs. run.
  destruct (m (vm_ a) !! "format") as [[[] ?]|]; run; try by eauto.
  all: destruct (m (vm_ a) !! "output") as [[[] ?]|]; run; try by eauto.
  all: destruct (m (vm_ a) !! "output-layer") as [[[] ?]|]; run; try by eauto.
  all: destruct (String.eqb (to_lower _) "shp"); run.
  all: rewrite Ht; run.
  all: destruct (String.eqb (to_lower t) "polygon"); [discriminate |].
  all: destruct (String.eqb (to_lower t) "point"); [discriminate |].
  all: by eauto.
Qed.

Lemma readArgs_invalid_type (s : St) (t : string) (dt : bool) :
  m (vm_ (this s)) !! "type" = Some (mkValue (any_string t) dt) →
  geometry_of (to_lower t) = None →
  ∃ e s', readArgs s = Throw e s' ∧ process_calls s' = process_calls s.
Proof.
  intros Ht Hg. unfold readArgs.
  apply throws_bind_frame; [apply frame_readOptional_ptr |]. intros b s1 H1.
  apply throws_bind_frame; [apply frame_modify; intros []; reflexivity |].
  intros _ s2 H2.
  apply throws_bind_frame; [apply frame_readOptional_ptr |]. intros sv s3 H3.
  apply throws_bind_frame.
  { destruct sv.
    - apply frame_bind; [apply frame_parseService | intros ?].
      apply frame_bind; [apply frame_modify; intros []; reflexivity | intros _].
      apply frame_readWebServiceArgs.
    - apply frame_bind; [apply frame_readRequired | intros ?].
      apply frame_bind; [apply frame_modify; intros []; reflexivity | intros _].
      apply frame_modify; intros []; reflexivity. }
  intros _ s4 H4.
  apply throws_bind_frame; [apply frame_readProcessingArgs |]. intros _ s5 H5.
  apply throws_bind. apply (readOutputArgs_throws s5 t dt); [| done].
  by rewrite H5, H4, H3, H2, H1.
Qed.

(** ** Reading as a whole *)

Lemma bind_Return {A B} (c : M A) (k : A → M B) (s s1 : St) (a : A) :
  c s = Return a s1 → bind c k s = k a s1.
Proof. intros Hc. unfold bind. by rewrite Hc. Qed.

Lemma readProcessingArgs_keeps (s : St) (model : string) (d : bool) :
  well_typed (vm_ (this s)) →
  m (vm_ (this s)) !! "model" = Some (mkValue (any_string model) d) →
  ∃ s', readProcessingArgs s = Return tt s' ∧ input_kept s s'.
Proof.
  intros Hwt Hm. rewrite (readProcessingArgs_returns s model d Hwt Hm).
  eexists; split; [reflexivity |]. by destruct s as [[] ? ? ?].
Qed.

Lemma readOutputArgs_keeps (s : St) (out : string) (d : bool) (g : GeometryType) :
  well_typed (vm_ (this s)) →
  m (vm_ (this s)) !! "output" = Some (mkValue (any_string out) d) →
  geometry_of (to_lower (default "polygon" (given s "type" ≫= as_string))) = Some g →
  ∃ s', readOutputArgs s = Return tt s' ∧ input_kept s s'.
Proof.
  intros Hwt Ho Hg. rewrite (readOutputArgs_returns s out d g Hwt Ho Hg).
  eexists; split; [reflexivity |]. by destruct s as [[] ? ? ?].
Qed.

Lemma readFeatureDetectionArgs_keeps (s : St) :
  well_typed (vm_ (this s)) →
  ∃ s', readFeatureDetectionArgs s = Return tt s' ∧ input_kept s s'.
Proof.
  intros Hwt. rewrite (readFeatureDetectionArgs_returns s Hwt).
  eexists; split; [reflexivity |].
  unfold given. destruct s as [[] ? ? ?]; cbn.
  by destruct (m _ !! "nms").
Qed.

(** The end of [readArgs]: logging options, [quiet], and the run. *)
Lemma readArgs_tail_returns (s : St) :
  m (vm_ (this s)) !! "log" = None →
  ∃ s',
    (readLoggingArgs ;;
     q <- present "quiet" ;;
     (if q then
        h <- get coutSink_ ;;
        removeSink h ;;
        l <- present "log" ;;
        (if l then h' <- get cerrSink_ ;; removeSink h' else ret tt) ;;
        modify (set_quiet true)
      else ret tt) ;;
     osn_process) s = Return tt s'
    ∧ bbox (this s') = bbox (this s)
    ∧ source (this s') = source (this s)
    ∧ image (this s') = image (this s)
    ∧ process_calls s' = (process_calls s ++ [this s'])%list.
Proof.
  intros Hlog. destruct s as [a L c pc]. cbn in Hlog.
  unfold readLoggingArgs, osn_process. run.
  destruct (m (vm_ a) !! "trace"); run;
    [| destruct (m (vm_ a) !! "debug"); run ].
  all: relook.
  all: destruct (m (vm_ a) !! "quiet"); run; relook.
  all: eexists; split; [reflexivity |]; cbn.
  all: by destruct a.
Qed.

Lemma readArgs_local_returns (s : St) (img model out : string)
    (di dm do : bool) (g : GeometryType) :
  well_typed (vm_ (this s)) →
  m (vm_ (this s)) !! "service" = None →
  m (vm_ (this s)) !! "image" = Some (mkValue (any_string img) di) →
  m (vm_ (this s)) !! "model" = Some (mkValue (any_string model) dm) →
  m (vm_ (this s)) !! "output" = Some (mkValue (any_string out) do) →
  geometry_of (to_lower (default "polygon" (given s "type" ≫= as_string))) = Some g →
  m (vm_ (this s)) !! "log" = None →
  ∃ s', readArgs s = Return tt s'
        ∧ bbox (this s') = given s "bbox" ≫= as_Rect2d
        ∧ source (this s') = LOCAL
        ∧ image (this s') = img
        ∧ process_calls s' = (process_calls s ++ [this s'])%list.
Proof.
  intros Hwt Hsv Him Hmo Hout Hg Hlog.
  pose (s1 := set_this (fun a => set_source LOCAL (set_image img
                 (set_bbox (given s "bbox" ≫= as_Rect2d) a))) s).
  assert (Hv1 : vm_ (this s1) = vm_ (this s)) by by destruct s as [[] ? ? ?].
  destruct (readProcessingArgs_keeps s1 model dm) as (s2 & E2 & Hv2 & Hp2 & Hb2 & Hs2 & Hi2);
    [by rewrite Hv1 | by rewrite Hv1 |].
  destruct (readOutputArgs_keeps s2 out do g) as (s3 & E3 & Hv3 & Hp3 & Hb3 & Hs3 & Hi3);
    [by rewrite Hv2, Hv1 | by rewrite Hv2, Hv1
    | unfold given in *; by rewrite Hv2, Hv1 |].
  destruct (readFeatureDetectionArgs_keeps s3) as (s4 & E4 & Hv4 & Hp4 & Hb4 & Hs4 & Hi4);
    [by rewrite Hv3, Hv2, Hv1 |].
  destruct (readArgs_tail_returns s4) as (s5 & E5 & Hb5 & Hs5 & Hi5 & Hp5);
    [by rewrite Hv4, Hv3, Hv2, Hv1 |].
  exists s5.
  assert (Hpre : readArgs s = Return tt s5).
  { unfold readArgs.
    transitivity
      ((readProcessingArgs ;; readOutputArgs ;; readFeatureDetectionArgs ;;
        readLoggingArgs ;;
        q <- present "quiet" ;;
        (if q then
           h <- get coutSink_ ;;
           removeSink h ;;
           l <- present "log" ;;
           (if l then h' <- get cerrSink_ ;; removeSink h' else ret tt) ;;
           modify (set_quiet true)
         else ret tt) ;;
        osn_process) s1).
    - unfold s1, given. destruct s as [a L c pc]. cbn in Hwt, Hsv, Him |- *.
      unfold bind at 1, readOptional_ptr at 1. run.
      typed Hwt "bbox"; run; rewrite Hsv; run; rewrite Him; run; reflexivity.
    - rewrite (bind_Return _ _ _ _ _ E2), (bind_Return _ _ _ _ _ E3),
        (bind_Return _ _ _ _ _ E4). exact E5. }
  split; [exact Hpre |].
  rewrite Hb5, Hs5, Hi5, Hp5, Hb4, Hs4, Hi4, Hp4, Hb3, Hs3, Hi3, Hp3,
    Hb2, Hs2, Hi2, Hp2.
  unfold s1. by destruct s as [[] ? ? ?].
Qed.

Lemma readArgs_web_no_bbox (s : St) (service : string) (d : bool) :
  m (vm_ (this s)) !! "service" = Some (mkValue (any_string service) d) →
  m (vm_ (this s)) !! "bbox" = None →
  ∃ s',
    readArgs s =
    Throw (match service_of (to_lower service) with
           | Some _ => Error "The --bbox argument is required for web services."
           | None => Error ("Invalid --service parameter: " +:+ to_lower service)
           end) s'
    ∧ token (this s') = token (this s)
    ∧ credentials (this s') = credentials (this s)
    ∧ zoom (this s') = zoom (this s)
    ∧ maxConnections (this s') = maxConnections (this s)
    ∧ mapId (this s') = mapId (this s)
    ∧ cout s' = cout s
    ∧ process_calls s' = process_calls s.
Proof.
  intros Hsv Hb. unfold service_of. destruct s as [a L c pc]. cbn in *.
  unfold readArgs, readWebServiceArgs, parseService. run.
  rewrite Hb; run. rewrite Hsv; run.
  destruct (String.eqb (to_lower service) "dgcs"); run;
    [| destruct (String.eqb (to_lower service) "evwhs"); run;
       [| destruct (String.eqb (to_lower service) "maps-api"); run ] ].
  all: eexists; split; [reflexivity |]; by destruct a.
Qed.

End Reading.


(** * Properties of non-maximum suppression *)

Section Suppression.
Variable t : Q.

Lemma select_subseteq (cands : list GeoFeature) : select t cands ⊆ cands.
Proof.
  funelim (select t cands); simp select; [done |].
  intros x Hx. apply elem_of_cons in Hx as [-> | Hx]; [by left |].
  right. apply H in Hx. by apply list_elem_of_filter in Hx as [_ Hx].
Qed.

Lemma select_length (cands : list GeoFeature) :
  (length (select t cands) ≤ length cands)%nat.
Proof.
  funelim (select t cands); simp select; [done |]. cbn.
  pose proof (length_filter (fun c => exceeds t a c = false) rest). lia.
Qed.

Lemma select_nonempty (cands : list GeoFeature) :
  cands ≠ [] → select t cands ≠ [].
Proof. destruct cands; [done |]. by simp select. Qed.

Lemma select_head (a : GeoFeature) (rest : list GeoFeature) :
  head (select t (a :: rest)) = Some a.
Proof. by simp select. Qed.

Lemma desc_filter (P : GeoFeature → Prop) `{∀ x, Decision (P x)}
    (l : list GeoFeature) :
  desc l → desc (filter P l).
Proof.
  unfold desc. induction 1 as [|x l Hs IH Hx]; [constructor |].
  rewrite filter_cons. case_decide; [| done].
  constructor; [done |].
  rewrite Forall_forall in Hx |- *. intros y Hy.
  apply list_elem_of_filter in Hy as [_ Hy]. by apply Hx.
Qed.

Lemma select_desc (cands : list GeoFeature) : desc cands → desc (select t cands).
Proof.
  remember (length cands) as n eqn:Hn. revert cands Hn.
  induction (lt_wf n) as [n _ IH]. intros [|a rest] -> Hs; simp select.
  apply StronglySorted_inv in Hs as [Hs Ha].
  constructor.
  - eapply IH; [| reflexivity | by apply desc_filter].
    cbn. apply Nat.lt_succ_r, length_filter.
  - rewrite Forall_forall in Ha |- *. intros y Hy.
    apply select_subseteq, list_elem_of_filter in Hy as [_ Hy]. by apply Ha.
Qed.

Lemma filter_all {A} (P : A → Prop) `{∀ x, Decision (P x)} (l : list A) :
  Forall P l → filter P l = l.
Proof.
  induction 1 as [|x l Hx _ IH]; [done |].
  by rewrite filter_cons_True, IH.
Qed.

(** A second pass of the loop changes nothing. *)
Lemma select_select (cands : list GeoFeature) :
  select t (select t cands) = select t cands.
Proof.
  funelim (select t cands); simp select; [done |].
  f_equal. rewrite filter_all; [done |].
  apply Forall_forall. intros y Hy.
  by apply select_subseteq, list_elem_of_filter in Hy as [Hy _].
Qed.

Lemma insert_desc_elem_of (x y : GeoFeature) (l : list GeoFeature) :
  y ∈ insert_desc x l ↔ y = x ∨ y ∈ l.
Proof.
  induction l as [|z l IH]; cbn.
  - rewrite list_elem_of_singleton, elem_of_nil. tauto.
  - destruct (Qle_bool _ _); [apply elem_of_cons |].
    rewrite !elem_of_cons, IH. tauto.
Qed.

Lemma sort_desc_elem_of (y : GeoFeature) (l : list GeoFeature) :
  y ∈ sort_desc l ↔ y ∈ l.
Proof.
  induction l as [|x l IH]; cbn; [done |].
  rewrite insert_desc_elem_of, elem_of_cons, IH. tauto.
Qed.

Lemma Qle_bool_total (x y : Q) : Qle_bool x y = false → Qle_bool y x = true.
Proof.
  intros Hxy. apply Qle_bool_iff.
  destruct (Qlt_le_dec y x) as [Hlt | Hle]; [by apply Qlt_le_weak |].
  apply Qle_bool_iff in Hle. congruence.
Qed.

Lemma Qle_bool_trans (x y z : Q) :
  Qle_bool x y = true → Qle_bool y z = true → Qle_bool x z = true.
Proof. rewrite !Qle_bool_iff. apply Qle_trans. Qed.

Lemma insert_desc_sorted (x : GeoFeature) (l : list GeoFeature) :
  desc l → desc (insert_desc x l).
Proof.
  unfold desc. induction 1 as [|z l Hs IH Hz]; cbn.
  - repeat constructor.
  - destruct (Qle_bool (f_confidence z) (f_confidence x)) eqn:Hzx.
    + constructor; [by constructor |].
      constructor; [done |].
      eapply Forall_impl; [exact Hz |]. intros y Hy. cbn in Hy.
      by eapply Qle_bool_trans.
    + constructor; [done |].
      apply Forall_forall. intros y Hy.
      apply insert_desc_elem_of in Hy as [-> | Hy].
      * by apply Qle_bool_total.
      * rewrite Forall_forall in Hz. by apply Hz.
Qed.

Lemma sort_desc_sorted (l : list GeoFeature) : desc (sort_desc l).
Proof.
  induction l as [|x l IH]; cbn; [constructor | by apply insert_desc_sorted].
Qed.

(** Sorting leaves a list in descending order as it is. *)
Lemma sort_desc_id (l : list GeoFeature) : desc l → sort_desc l = l.
Proof.
  unfold desc. induction 1 as [|x l Hs IH Hx]; [done |].
  cbn. fold (sort_desc l). rewrite IH.
  destruct Hx as [|y l Hy _]; [done |]. cbn. by rewrite Hy.
Qed.

Lemma suppress_label_subseteq (cands : list GeoFeature) :
  suppress_label t cands ⊆ cands.
Proof.
  intros x Hx. apply sort_desc_elem_of. by apply (select_subseteq _ x).
Qed.

Lemma suppress_label_nonempty (cands : list GeoFeature) :
  cands ≠ [] → suppress_label t cands ≠ [].
Proof.
  intros Hne. apply select_nonempty. intros Hs.
  destruct cands as [|x l]; [done |].
  assert (x ∈ sort_desc (x :: l)) as Hx by (apply sort_desc_elem_of; left).
  rewrite Hs in Hx. by apply elem_of_nil in Hx.
Qed.

Lemma suppress_label_idem (cands : list GeoFeature) :
  suppress_label t (suppress_label t cands) = suppress_label t cands.
Proof.
  unfold suppress_label.
  rewrite (sort_desc_id (select t (sort_desc cands))).
  - apply select_select.
  - apply select_desc, sort_desc_sorted.
Qed.

(** *** Grouping by label *)

Lemma filter_none {A} (P : A → Prop) `{∀ x, Decision (P x)} (l : list A) :
  Forall (fun x => ¬ P x) l → filter P l = [].
Proof.
  induction 1 as [|x l Hx _ IH]; [done |].
  by rewrite filter_cons_False.
Qed.

Lemma elem_of_map_label (l : string) (fs : list GeoFeature) :
  l ∈ map f_label fs ↔ ∃ f, f ∈ fs ∧ f_label f = l.
Proof.
  rewrite list_elem_of_In, in_map_iff.
  split; intros (f & H1 & H2); exists f.
  - by rewrite list_elem_of_In.
  - by rewrite <- list_elem_of_In.
Qed.

Lemma remove_dups_block (k : nat) (l : string) (rest : list string) :
  l ∉ rest → remove_dups (replicate (S k) l ++ rest) = l :: remove_dups rest.
Proof.
  intros Hl. induction k as [|k IH].
  - cbn. by destruct (decide_rel _ _ _).
  - change (replicate (S (S k)) l ++ rest)%list
      with (l :: replicate (S k) l ++ rest)%list.
    cbn [remove_dups].
    destruct (decide_rel _ _ _) as [_ | Hn]; [exact IH |].
    destruct Hn. left.
Qed.

Lemma map_label_block (l : string) (g : list GeoFeature) :
  Forall (fun f => f_label f = l) g → map f_label g = replicate (length g) l.
Proof. induction 1 as [|f g Hf _ IH]; cbn; [done | by rewrite Hf, IH]. Qed.

Lemma flat_map_eq_on {A B} (f g : A → list B) (l : list A) :
  (∀ x, x ∈ l → f x = g x) → flat_map f l = flat_map g l.
Proof.
  induction l as [|x l IH]; intros Hfg; cbn; [done |].
  rewrite Hfg by left. rewrite IH; [done |]. intros y Hy. apply Hfg. by right.
Qed.

Section Groups.
Variable G : string → list GeoFeature.

(** The labels of the groups of [L], put one after the other, are among
    [L]. *)
Lemma groups_labels (L : list string) :
  (∀ l, l ∈ L → Forall (fun f => f_label f = l) (G l)) →
  Forall (fun f => f_label f ∈ L) (flat_map G L).
Proof.
  induction L as [|l L IH]; intros HG; cbn; [constructor |].
  apply Forall_app. split.
  - eapply Forall_impl; [apply HG; left |]. intros f ->. left.
  - eapply Forall_impl; [apply IH |].
    + intros l' Hl'. apply HG. by right.
    + intros f Hf. by right.
Qed.

Lemma labels_groups (L : list string) :
  NoDup L →
  (∀ l, l ∈ L → G l ≠ [] ∧ Forall (fun f => f_label f = l) (G l)) →
  labels (flat_map G L) = L.
Proof.
  unfold labels. induction 1 as [|l L Hl Hnd IH]; intros HG; cbn; [done |].
  rewrite map_app.
  destruct (HG l) as [Hne Hall]; [left |].
  rewrite (map_label_block l (G l) Hall).
  destruct (G l) as [|f g]; [done |]. cbn [length].
  rewrite remove_dups_block.
  - f_equal. apply IH. intros l' Hl'. apply HG. by right.
  - intros Hin. apply elem_of_map_label in Hin as (f' & Hf' & Hlab).
    assert (Forall (fun f => f_label f ∈ L) (flat_map G L)) as HL.
    { apply groups_labels. intros l' Hl'. apply HG. by right. }
    rewrite Forall_forall in HL. apply Hl. rewrite <- Hlab. by apply HL.
Qed.

Lemma filter_groups (L : list string) (l : string) :
  NoDup L →
  (∀ l, l ∈ L → Forall (fun f => f_label f = l) (G l)) →
  l ∈ L →
  filter (fun f => f_label f = l) (flat_map G L) = G l.
Proof.
  induction 1 as [|l0 L Hl0 Hnd IH]; intros HG Hl; [by apply elem_of_nil in Hl |].
  cbn. rewrite filter_app.
  assert (Forall (fun f => f_label f ∈ L) (flat_map G L)) as HL.
  { apply groups_labels. intros l' Hl'. apply HG. by right. }
  destruct (decide (l = l0)) as [-> | Hne].
  - rewrite filter_all by (apply HG; left).
    rewrite filter_none; [apply app_nil_r |].
    eapply Forall_impl; [exact HL |]. intros f Hf Heq. apply Hl0.
    by rewrite <- Heq.
  - rewrite filter_none.
    + cbn. apply IH.
      * intros l' Hl'. apply HG. by right.
      * apply elem_of_cons in Hl as [-> | Hl]; done.
    + eapply Forall_impl; [apply HG; left |]. intros f Hf Heq. apply Hne.
      by rewrite <- Heq, <- Hf.
Qed.

End Groups.

Lemma suppress_subseteq (features : list GeoFeature) :
  suppress features t ⊆ features.
Proof.
  intros f Hf. unfold suppress in Hf.
  apply list_elem_of_In, in_flat_map in Hf as (l & _ & Hf).
  apply list_elem_of_In, suppress_label_subseteq in Hf.
  by apply list_elem_of_filter in Hf as [_ Hf].
Qed.

Lemma suppress_groups (features : list GeoFeature) (l : string) :
  l ∈ labels features →
  suppress_label t (filter (fun f => f_label f = l) features) ≠ []
  ∧ Forall (fun f => f_label f = l)
      (suppress_label t (filter (fun f => f_label f = l) features)).
Proof.
  intros Hl. apply elem_of_remove_dups, elem_of_map_label in Hl as (f & Hf & Hlab).
  split.
  - apply suppress_label_nonempty. intros Hnil.
    by apply (filter_nil_not_elem_of _ _ f Hnil).
  - apply Forall_forall. intros y Hy.
    by apply suppress_label_subseteq, list_elem_of_filter in Hy as [Hy _].
Qed.

End Suppression.

(** * Properties of the feature collection *)

Section Collection.
Variable pixelToLL_ : Q * Q → Q * Q.
Variable producer : ProducerInfo.
Variable args_ : OpenSkyNetArgs.

(** A property of features that [addFeature] establishes for every feature
    it builds holds throughout the collection of a run. *)
Lemma addFeature_Forall (P : GeoFeature → Prop) (window : Rect)
    (predictions : list Prediction) (featureSet_ : list GeoFeature) :
  (∀ p, p ∈ predictions →
        Qle_bool (confidence args_) (pr_confidence p) = true →
        P (mkFeature window (window_geometry pixelToLL_ args_ window)
             (pr_label p) (pr_confidence p) (createFeatureFields producer args_))) →
  Forall P featureSet_ →
  Forall P (addFeature pixelToLL_ producer args_ window predictions featureSet_).
Proof.
  intros Hnew Hold. unfold addFeature. apply Forall_app. split; [done |].
  apply Forall_forall. intros f Hf.
  apply list_elem_of_In, in_map_iff in Hf as (p & <- & Hp).
  apply list_elem_of_In, list_elem_of_filter in Hp as [Hc Hp]. by apply Hnew.
Qed.

Lemma process_Forall (P : GeoFeature → Prop)
    (windows : list (Rect * list Prediction)) :
  (∀ window p,
        Qle_bool (confidence args_) (pr_confidence p) = true →
        P (mkFeature window (window_geometry pixelToLL_ args_ window)
             (pr_label p) (pr_confidence p) (createFeatureFields producer args_))) →
  Forall P (process pixelToLL_ producer args_ windows).
Proof.
  intros Hnew. unfold process.
  assert (Hc : ∀ fs, Forall P fs →
    Forall P (fold_left
      (fun fs wp => addFeature pixelToLL_ producer args_ (fst wp) (snd wp) fs)
      windows fs)).
  { induction windows as [|[w ps] ws IH]; intros fs Hfs; cbn; [done |].
    apply IH, addFeature_Forall; [| done]. intros p _ Hp. by apply Hnew. }
  specialize (Hc [] (Forall_nil_2 _)).
  destruct (nms args_); [| done].
  apply Forall_forall. intros f Hf. apply suppress_subseteq in Hf.
  rewrite Forall_forall in Hc. by apply Hc.
Qed.

End Collection.


(** * Properties of [po::store] *)

Lemma unset_empty (k : string) : unset k empty_vm.
Proof.
  split; [apply not_elem_of_empty |].
  intros x Hx. cbn in Hx. by rewrite lookup_empty in Hx.
Qed.

Lemma occurrences_cons_ne (k k' : string) (tok : any) (opts : parsed_options) :
  k' ≠ k → occurrences k ((k', tok) :: opts) = occurrences k opts.
Proof. intros Hne. unfold occurrences. rewrite filter_cons. by rewrite decide_False. Qed.

Lemma occurrences_cons_eq (k : string) (tok : any) (opts : parsed_options) :
  occurrences k ((k, tok) :: opts) = (k, tok) :: occurrences k opts.
Proof. unfold occurrences. rewrite filter_cons. by rewrite decide_True. Qed.

Lemma store_options_final (opts : parsed_options) (xm xm' : variables_map)
    (nf nf' : gset string) :
  store_options opts xm nf = inr (xm', nf') → m_final xm' = m_final xm.
Proof.
  revert xm nf. induction opts as [|[k' tok] opts IH]; intros xm nf Hs; cbn in Hs.
  - by injection Hs as <- <-.
  - destruct (decide (k' ∈ m_final xm)); [by eapply IH |].
    destruct (xparse _ _ _) as [e|v]; [done |].
    by apply IH in Hs.
Qed.

(** An option that is final, or that the source does not mention, keeps
    its entry. *)
Lemma store_options_skip (k : string) (opts : parsed_options)
    (xm xm' : variables_map) (nf nf' : gset string) :
  store_options opts xm nf = inr (xm', nf') →
  k ∈ m_final xm ∨ occurrences k opts = [] →
  m xm' !! k = m xm !! k ∧ (k ∈ nf' ↔ k ∈ nf).
Proof.
  revert xm nf. induction opts as [|[k' tok] opts IH]; intros xm nf Hs Hk; cbn in Hs.
  - by injection Hs as <- <-.
  - destruct (decide (k' ∈ m_final xm)) as [Hf | Hf].
    + apply (IH _ _ Hs). destruct Hk as [Hk | Hk]; [by left | right].
      destruct (decide (k' = k)) as [-> | Hne].
      * by rewrite occurrences_cons_eq in Hk.
      * by rewrite occurrences_cons_ne in Hk.
    + destruct (xparse _ _ _) as [e|v]; [done |].
      assert (k' ≠ k) as Hne.
      { intros ->. destruct Hk as [Hk | Hk]; [done |].
        by rewrite occurrences_cons_eq in Hk. }
      apply IH in Hs as [Hm Hnf].
      * cbn in Hm. rewrite lookup_insert_ne in Hm by done.
        split; [done |]. rewrite Hnf, elem_of_union, elem_of_singleton.
        split; [intros [Heq | Hin]; [by destruct Hne | done] | by right].
      * cbn. destruct Hk as [Hk | Hk]; [by left | right].
        by rewrite occurrences_cons_ne in Hk.
Qed.

(** An option that is not set yet and occurs once receives the value of
    that occurrence. *)
Lemma store_options_once (k : string) (v : any) (opts : parsed_options)
    (xm xm' : variables_map) (nf nf' : gset string) :
  store_options opts xm nf = inr (xm', nf') →
  unset k xm →
  occurrences k opts = [(k, v)] →
  m xm' !! k = Some (mkValue v false) ∧ k ∈ nf'.
Proof.
  revert xm nf. induction opts as [|[k' tok] opts IH];
    intros xm nf Hs [Hnf Hdef] Hk; cbn in Hs; [done |].
  destruct (decide (k' = k)) as [-> | Hne].
  - rewrite occurrences_cons_eq in Hk. injection Hk as -> Hk.
    rewrite decide_False in Hs by done.
    assert (match m xm !! k with
            | Some x => if defaulted x then None else Some (value x)
            | None => None
            end = None) as Hold.
    { destruct (m xm !! k) as [x|] eqn:Hx; [| done]. by rewrite (Hdef x). }
    rewrite Hold in Hs. cbn in Hs.
    apply (store_options_skip k) in Hs as [Hm Hin]; [| by right].
    cbn in Hm. rewrite lookup_insert_eq in Hm. split; [done |].
    apply Hin, elem_of_union_l. by apply elem_of_singleton.
  - rewrite occurrences_cons_ne in Hk by done.
    destruct (decide (k' ∈ m_final xm)); [by eapply IH |].
    destruct (xparse _ _ _) as [e|x]; [done |].
    eapply IH; [exact Hs | | done].
    split; [done |]. cbn. intros y. rewrite lookup_insert_ne by done. apply Hdef.
Qed.

Lemma apply_defaults_Some (defaults : list (string * any))
    (mp : gmap string variable_value) (k : string) (x : variable_value) :
  mp !! k = Some x → apply_defaults defaults mp !! k = Some x.
Proof.
  revert mp. induction defaults as [|[key def] rest IH]; intros mp Hk; cbn; [done |].
  apply IH. destruct (mp !! key) eqn:Hkey; [done |].
  rewrite lookup_insert_ne; [done |]. intros ->. congruence.
Qed.

Lemma apply_defaults_defaulted (defaults : list (string * any))
    (mp : gmap string variable_value) (k : string) :
  (∀ x, mp !! k = Some x → defaulted x = true) →
  ∀ x, apply_defaults defaults mp !! k = Some x → defaulted x = true.
Proof.
  revert mp. induction defaults as [|[key def] rest IH]; intros mp Hk; cbn; [done |].
  apply IH. destruct (mp !! key) eqn:Hkey; [done |].
  intros x. destruct (decide (key = k)) as [-> | Hne].
  - rewrite lookup_insert_eq. by intros [= <-].
  - rewrite lookup_insert_ne by done. apply Hk.
Qed.

Section Store.
Variable defaults : list (string * any).

Lemma store_fixed (k : string) (x : variable_value) (opts : parsed_options)
    (xm xm' : variables_map) :
  store defaults opts xm = inr xm' → fixed k x xm → fixed k x xm'.
Proof.
  unfold store. intros Hs [Hf Hx].
  destruct (store_options opts xm ∅) as [e|[xm1 nf]] eqn:Hso; [done |].
  injection Hs as <-.
  pose proof (store_options_final _ _ _ _ _ Hso) as Hfin.
  apply (store_options_skip k) in Hso as [Hm _]; [| by left].
  split; cbn.
  - apply elem_of_union_l. by rewrite Hfin.
  - apply apply_defaults_Some. by rewrite Hm.
Qed.

Lemma store_unset (k : string) (opts : parsed_options) (xm xm' : variables_map) :
  store defaults opts xm = inr xm' →
  unset k xm → occurrences k opts = [] → unset k xm'.
Proof.
  unfold store. intros Hs [Hf Hx] Hocc.
  destruct (store_options opts xm ∅) as [e|[xm1 nf]] eqn:Hso; [done |].
  injection Hs as <-.
  pose proof (store_options_final _ _ _ _ _ Hso) as Hfin.
  apply (store_options_skip k) in Hso as [Hm Hnf]; [| by right].
  split; cbn.
  - rewrite Hfin, elem_of_union, Hnf, elem_of_empty. tauto.
  - apply apply_defaults_defaulted. by rewrite Hm.
Qed.

Lemma store_once (k : string) (v : any) (opts : parsed_options)
    (xm xm' : variables_map) :
  store defaults opts xm = inr xm' →
  unset k xm → occurrences k opts = [(k, v)] →
  fixed k (mkValue v false) xm'.
Proof.
  unfold store. intros Hs Hu Hocc.
  destruct (store_options opts xm ∅) as [e|[xm1 nf]] eqn:Hso; [done |].
  injection Hs as <-.
  destruct (store_options_once k v _ _ _ _ _ Hso Hu Hocc) as [Hm Hnf].
  split; cbn; [by apply elem_of_union_r | by apply apply_defaults_Some].
Qed.

End Store.

(** * Properties of [parseArgs] *)

Lemma bind_inv {A B} (c : M A) (k : A → M B) (s s' : St) (b : B) :
  bind c k s = Return b s' → ∃ a s1, c s = Return a s1 ∧ k a s1 = Return b s'.
Proof. unfold bind. destruct (c s) as [a s1|e s1]; [eauto | done]. Qed.

Section Parsing.
Context `{Environment}.

Lemma po_store_inv (opts : parsed_options) (s s' : St) :
  po_store opts s = Return tt s' →
  store (optionsDescription_ (this s)) opts (vm_ (this s)) = inr (vm_ (this s'))
  ∧ optionsDescription_ (this s') = optionsDescription_ (this s).
Proof.
  unfold po_store. destruct (store _ _ _) as [e|vm'] eqn:Hs; [done |].
  intros [= <-]. by destruct s as [[] ? ? ?].
Qed.

Lemma notify_inv (s s' : St) : notify s = Return tt s' → s' = s.
Proof.
  unfold notify, find, get, bind, DG_CHECK, ret, throw.
  destruct (m (vm_ (this s)) !! "format") as [[[] ?]|]; try by intros [= <-].
  destruct (bool_decide _); by intros [= <-].
Qed.

Lemma load_inv (f : string) (s s' : St) :
  load f s = Return tt s' →
  ∃ opts, parse_config_file f = Some opts
    ∧ store (optionsDescription_ (this s)) opts (vm_ (this s)) = inr (vm_ (this s'))
    ∧ optionsDescription_ (this s') = optionsDescription_ (this s).
Proof.
  unfold load. destruct (parse_config_file f) as [opts|]; [| done].
  intros Hl. apply bind_inv in Hl as ([] & s1 & Hst & Hn).
  apply notify_inv in Hn as ->. exists opts. split; [done |].
  by apply po_store_inv.
Qed.

Lemma load_all_fixed (k : string) (x : variable_value) (files : list string)
    (s s' : St) :
  for_each files load s = Return tt s' →
  fixed k x (vm_ (this s)) → fixed k x (vm_ (this s')).
Proof.
  revert s. induction files as [|f files IH]; intros s Hl Hf; cbn in Hl.
  - by injection Hl as <-.
  - apply bind_inv in Hl as ([] & s1 & Hf1 & Hl).
    apply load_inv in Hf1 as (opts & _ & Hst & _).
    eapply IH; [exact Hl |]. by eapply store_fixed.
Qed.


(** What [parseArgs] leaves in [vm_] when it returns: the command line
    is stored first, then the environment, then the configuration files
    from the last one to the first. *)
Lemma parseArgs_inv (argc : Z) (argv : parsed_options) (s s' : St) :
  parseArgs argc argv s = Return tt s' →
  ∃ s1 s2 s3 configFiles,
    store (optionsDescription_ (this s)) argv (vm_ (this s)) = inr (vm_ (this s1))
    ∧ store (optionsDescription_ (this s1)) parse_environment (vm_ (this s1))
      = inr (vm_ (this s2))
    ∧ readOptional_strings "config" splitArgs_default s2 = Return configFiles s2
    ∧ for_each (rev (default [] configFiles)) load s2 = Return tt s3
    ∧ vm_ (this s') = vm_ (this s3).
Proof.
  unfold parseArgs. intros Hp.
  apply bind_inv in Hp as ([] & s0 & Hargc & Hp).
  assert (s0 = s) as ->.
  { destruct (argc <? 2)%Z; [| by injection Hargc as <-].
    apply bind_inv in Hargc as (? & ? & _ & Hthrow). done. }
  apply bind_inv in Hp as ([] & s1 & Hst1 & Hp).
  apply bind_inv in Hp as ([] & s1' & Hn & Hp). apply notify_inv in Hn as ->.
  apply bind_inv in Hp as ([] & s2 & Hst2 & Hp).
  apply bind_inv in Hp as (configFiles & s2' & Hcf & Hp).
  assert (s2' = s2) as ->.
  { revert Hcf. unfold readOptional_strings, find, get, bind, as_, ret, throw.
    destruct (m (vm_ (this s2)) !! "config") as [[[] ?]|]; by intros [= <- <-]. }
  apply bind_inv in Hp as ([] & s3 & Hloop & Hp).
  apply bind_inv in Hp as (str & s3' & Hact & Hp).
  assert (s3' = s3) as ->.
  { revert Hact. unfold readRequired, find, get, bind, as_, ret, throw, printUsage, cout_put.
    destruct (m (vm_ (this s3)) !! "action") as [[[] ?]|]; by intros [= <- <-]. }
  apply bind_inv in Hp as ([] & s4 & Hmod & Hp). injection Hmod as <-.
  apply bind_inv in Hp as (a & s5 & Hget & Hp). injection Hget as <- <-.
  assert (s' = set_this (set_action (parseAction str)) s3) as ->.
  { destruct (Action_eqb _ _); [| by injection Hp as <-].
    apply bind_inv in Hp as (? & ? & _ & Hthrow). done. }
  exists s1, s2, s3, configFiles.
  apply po_store_inv in Hst1 as [Hst1 _]. apply po_store_inv in Hst2 as [Hst2 _].
  repeat split; try done.
  destruct configFiles as [files|]; [exact Hloop | by injection Hloop as <-].
Qed.


Lemma command_line_wins (argc : Z) (argv : parsed_options) (s s' : St)
    (k : string) (v : any) :
  vm_ (this s) = empty_vm →
  parseArgs argc argv s = Return tt s' →
  occurrences k argv = [(k, v)] →
  m (vm_ (this s')) !! k = Some (mkValue v false).
Proof.
  intros He Hp Hocc.
  apply parseArgs_inv in Hp as (s1 & s2 & s3 & cf & H1 & H2 & _ & Hl & ->).
  assert (fixed k (mkValue v false) (vm_ (this s1))) as Hf.
  { eapply store_once; [exact H1 | rewrite He; apply unset_empty | done]. }
  eapply store_fixed in Hf; [| exact H2].
  by eapply load_all_fixed in Hf as [_ Hf].
Qed.


End Parsing.


(** * The specification's statements *)

Section Statements.
Context `{Environment}.

(** C1 (as amended): reading the feature-detection options never rejects an
    overlap threshold. Whatever value the [nms] option carries, inside or
    outside (0,1], reading returns, enables suppression and stores that
    value as the overlap threshold; no run has been started by then. *)
Theorem overlap_threshold_not_validated (s : St) (v : Q) (rest : list Q) (d : bool) :
  well_typed (vm_ (this s)) →
  m (vm_ (this s)) !! "nms" = Some (mkValue (any_floats (v :: rest)) d) →
  ∃ s', readFeatureDetectionArgs s = Return tt s'
        ∧ nms (this s') = true
        ∧ overlap (this s') = v
        ∧ process_calls s' = process_calls s.
Proof.
  intros Hwt Hn. rewrite (readFeatureDetectionArgs_returns s Hwt).
  eexists; split; [reflexivity |].
  unfold given. rewrite Hn. by destruct s as [[] ? ? ?].
Qed.

(** C4: when the configuration holds no step size, the step size used for
    window planning is the base-two logarithm of the window's largest
    dimension, the same in both directions (as an integer number of pixels:
    the largest [k] with [2^k] at most that dimension); a configured step
    size is used as it is. *)
Theorem step_size_default_log2 (s : St) (windowSize_ : Size) :
  well_typed (vm_ (this s)) →
  ∃ s', readFeatureDetectionArgs s = Return tt s'
    ∧ (m (vm_ (this s)) !! "step-size" = None →
       let k := Z.log2 (Z.max (sz_width windowSize_) (sz_height windowSize_)) in
       stepSize_ (this s') windowSize_ = mkPoint k k
       ∧ (0 < Z.max (sz_width windowSize_) (sz_height windowSize_) →
          2 ^ k <= Z.max (sz_width windowSize_) (sz_height windowSize_) < 2 ^ (k + 1))%Z)
    ∧ (∀ p d, m (vm_ (this s)) !! "step-size" = Some (mkValue (any_Point p) d) →
       stepSize_ (this s') windowSize_ = p).
Proof.
  intros Hwt. rewrite (readFeatureDetectionArgs_returns s Hwt).
  eexists; split; [reflexivity |].
  unfold given, stepSize_. split.
  - intros Hst. split.
    + destruct s as [[] ? ? ?]; cbn in *. rewrite Hst.
      by destruct (m _ !! "nms").
    + intros Hpos. rewrite Z.add_1_r. by apply Z.log2_spec.
  - intros p d Hst. destruct s as [[] ? ? ?]; cbn in *. rewrite Hst.
    by destruct (m _ !! "nms").
Qed.

(** C5: reading the output options takes the geometry type from the [type]
    option, compared without regard to case: "polygon" gives polygon
    geometry, "point" gives point geometry, an absent option gives polygon,
    and every other string makes the reading fail with an error, so that
    the whole of [readArgs] fails before the run is started. *)
Theorem geometry_type_read (s : St) (out : string) (d : bool) :
  well_typed (vm_ (this s)) →
  m (vm_ (this s)) !! "output" = Some (mkValue (any_string out) d) →
  (m (vm_ (this s)) !! "type" = None →
     ∃ s', readOutputArgs s = Return tt s' ∧ geometryType (this s') = POLYGON)
  ∧ (∀ t dt, m (vm_ (this s)) !! "type" = Some (mkValue (any_string t) dt) →
       (to_lower t = "polygon" →
          ∃ s', readOutputArgs s = Return tt s' ∧ geometryType (this s') = POLYGON)
       ∧ (to_lower t = "point" →
          ∃ s', readOutputArgs s = Return tt s' ∧ geometryType (this s') = POINT)
       ∧ (to_lower t ≠ "polygon" → to_lower t ≠ "point" →
          (∃ s', readOutputArgs s =
                 Throw (Error ("Invalid geometry type: " +:+ to_lower t)) s'
                 ∧ process_calls s' = process_calls s)
          ∧ (∃ e s', readArgs s = Throw e s'
                     ∧ process_calls s' = process_calls s))).
Proof.
  intros Hwt Hout. split; [| intros t dt Ht; split; [| split]].
  - intros Ht.
    rewrite (readOutputArgs_returns s out d POLYGON Hwt Hout)
      by (unfold given; by rewrite Ht).
    eexists; split; [reflexivity |]. by destruct s as [[] ? ? ?].
  - intros Hp.
    rewrite (readOutputArgs_returns s out d POLYGON Hwt Hout)
      by (unfold given; rewrite Ht; cbn; by rewrite Hp).
    eexists; split; [reflexivity |]. by destruct s as [[] ? ? ?].
  - intros Hp.
    rewrite (readOutputArgs_returns s out d POINT Hwt Hout)
      by (unfold given; rewrite Ht; cbn; by rewrite Hp).
    eexists; split; [reflexivity |]. by destruct s as [[] ? ? ?].
  - intros Hnp Hnq. apply String.eqb_neq in Hnp, Hnq.
    assert (geometry_of (to_lower t) = None) as Hg
      by (unfold geometry_of; by rewrite Hnp, Hnq).
    split; [| by apply (readArgs_invalid_type s t dt Ht)].
    destruct (readOutputArgs_invalid_type s out d Hwt Hout) as (s' & Hs' & _ & Hpc).
    + unfold given. by rewrite Ht.
    + exists s'. unfold given in Hs'. rewrite Ht in Hs'. by split.
Qed.

(** C6: suppression is enabled exactly when the [nms] option is present;
    a value carried by the option becomes the overlap threshold, and
    without a value the threshold keeps its default. (The flag starts out
    false: reading only ever sets it.) *)
Theorem nms_enabled_iff_present (s : St) :
  well_typed (vm_ (this s)) →
  nms (this s) = false →
  ∃ s', readFeatureDetectionArgs s = Return tt s'
    ∧ (nms (this s') = true ↔ is_Some (m (vm_ (this s)) !! "nms"))
    ∧ (∀ v rest, given s "nms" = Some (any_floats (v :: rest)) →
         overlap (this s') = v)
    ∧ (given s "nms" = Some (any_floats []) → overlap (this s') = overlap (this s))
    ∧ (given s "nms" = None → overlap (this s') = overlap (this s)).
Proof.
  intros Hwt Hn0. rewrite (readFeatureDetectionArgs_returns s Hwt).
  eexists; split; [reflexivity |].
  unfold given. destruct s as [[] ? ? ?]; cbn in *.
  destruct (m _ !! "nms") as [[v d]|] eqn:Hn; cbn.
  - split; [split; [intros _; by eexists | done] | split; [| split]].
    + by intros v' rest [= ->].
    + by intros [= ->].
    + by intros [=].
  - split; [split; [congruence | by intros [? [=]]] | split; [| split]]; done.
Qed.

(** C10: with the format "shp" the layer name is the stem of the output
    path and a given [output-layer] is ignored with a warning; with any
    other format the layer name is the given [output-layer], or
    "skynetdetects" when there is none. *)
Theorem layer_name_read (s : St) (out : string) (d : bool) (g : GeometryType) :
  well_typed (vm_ (this s)) →
  m (vm_ (this s)) !! "output" = Some (mkValue (any_string out) d) →
  geometry_of (to_lower (default "polygon" (given s "type" ≫= as_string))) = Some g →
  let fmt :=
    to_lower (default (outputFormat (this s)) (given s "format" ≫= as_string)) in
  ∃ s', readOutputArgs s = Return tt s'
    ∧ (fmt = "shp" →
         layerName (this s') = path_stem out
         ∧ records (logging s') =
             (records (logging s) ++
              if is_present s "output-layer"
              then [(warning, "output-layer argument is ignored for Shapefile output.")]
              else [])%list)
    ∧ (fmt ≠ "shp" →
         layerName (this s') =
           default "skynetdetects" (given s "output-layer" ≫= as_string)
         ∧ records (logging s') = records (logging s)).
Proof.
  intros Hwt Hout Hg fmt.
  rewrite (readOutputArgs_returns s out d g Hwt Hout Hg).
  eexists; split; [reflexivity |]. fold fmt. split.
  - intros Hshp. rewrite Hshp. by destruct s as [[] ? ? ?].
  - intros Hshp. apply String.eqb_neq in Hshp. rewrite Hshp.
    destruct s as [[] ? ? ?]; cbn. by rewrite app_nil_r.
Qed.

(** C7: producer info is enabled exactly when the [producer-info] option
    is present; in a run with producer info every feature carries the same
    metadata (tool name, version, operator), and in a run without it no
    feature carries any. *)
Theorem producer_info_uniform (s : St) (out : string) (d : bool) (g : GeometryType) :
  well_typed (vm_ (this s)) →
  m (vm_ (this s)) !! "output" = Some (mkValue (any_string out) d) →
  geometry_of (to_lower (default "polygon" (given s "type" ≫= as_string))) = Some g →
  (∃ s', readOutputArgs s = Return tt s'
     ∧ (producerInfo (this s') = true ↔ is_Some (m (vm_ (this s)) !! "producer-info")))
  ∧ (∀ pixelToLL_ producer args_ windows,
       Forall (fun f => f_producer f = if producerInfo args_ then Some producer else None)
              (process pixelToLL_ producer args_ windows)).
Proof.
  intros Hwt Hout Hg. split.
  - rewrite (readOutputArgs_returns s out d g Hwt Hout Hg).
    eexists; split; [reflexivity |].
    unfold is_present. destruct s as [[] ? ? ?]; cbn.
    destruct (m _ !! "producer-info");
      (split; [done | done || by intros [? ?]]).
  - intros pixelToLL_ producer args_ windows.
    apply process_Forall. by intros window p _.
Qed.

(** C8: with a web service as the source, reading fails when no bounding
    box was given, before any other web-service option is taken (token,
    credentials, zoom, map id, number of downloads are as before, and
    nothing was prompted); with a local image the bounding box may be
    absent: reading returns with no bounding box and starts the run. *)
Theorem bbox_required_for_web_only (s : St) :
  m (vm_ (this s)) !! "bbox" = None →
  (∀ service d,
     m (vm_ (this s)) !! "service" = Some (mkValue (any_string service) d) →
     ∃ e s', readArgs s = Throw e s'
       ∧ (service_of (to_lower service) ≠ None →
          e = Error "The --bbox argument is required for web services.")
       ∧ token (this s') = token (this s)
       ∧ credentials (this s') = credentials (this s)
       ∧ zoom (this s') = zoom (this s)
       ∧ maxConnections (this s') = maxConnections (this s)
       ∧ mapId (this s') = mapId (this s)
       ∧ cout s' = cout s
       ∧ process_calls s' = process_calls s)
  ∧ (∀ img model out di dm do g,
       well_typed (vm_ (this s)) →
       m (vm_ (this s)) !! "service" = None →
       m (vm_ (this s)) !! "image" = Some (mkValue (any_string img) di) →
       m (vm_ (this s)) !! "model" = Some (mkValue (any_string model) dm) →
       m (vm_ (this s)) !! "output" = Some (mkValue (any_string out) do) →
       geometry_of (to_lower (default "polygon" (given s "type" ≫= as_string))) = Some g →
       m (vm_ (this s)) !! "log" = None →
       ∃ s', readArgs s = Return tt s'
         ∧ bbox (this s') = None
         ∧ source (this s') = LOCAL
         ∧ process_calls s' = (process_calls s ++ [this s'])%list).
Proof.
  intros Hb. split.
  - intros service d Hsv.
    destruct (readArgs_web_no_bbox s service d Hsv Hb)
      as (s' & Hr & Ht & Hc & Hz & Hm & Hi & Ho & Hp).
    eexists _, s'. split; [exact Hr |]. repeat split; try done.
    destruct (service_of (to_lower service)); done.
  - intros img model out di dm do g Hwt Hsv Him Hmo Hout Hg Hlog.
    destruct (readArgs_local_returns s img model out di dm do g)
      as (s' & Hr & Hbb & Hs & _ & Hp); try done.
    exists s'. repeat split; try done.
    rewrite Hbb. unfold given. by rewrite Hb.
Qed.


End Statements.

(** C2: a prediction below the configured confidence threshold never
    enters the feature collection, so no feature of a run's final
    collection has a confidence below the threshold. *)
Theorem no_feature_below_confidence (pixelToLL_ : Q * Q → Q * Q)
    (producer : ProducerInfo) (args_ : OpenSkyNetArgs) :
  (∀ window predictions featureSet_,
     Forall (fun f => ¬ (f_confidence f < confidence args_)%Q) featureSet_ →
     Forall (fun f => ¬ (f_confidence f < confidence args_)%Q)
       (addFeature pixelToLL_ producer args_ window predictions featureSet_))
  ∧ (∀ windows,
       Forall (fun f => ¬ (f_confidence f < confidence args_)%Q)
         (process pixelToLL_ producer args_ windows)).
Proof.
  split.
  - intros window predictions featureSet_. apply addFeature_Forall.
    intros p _ Hp. cbn. apply Qle_not_lt. by apply Qle_bool_iff.
  - intros windows. apply process_Forall.
    intros window p Hp. cbn. apply Qle_not_lt. by apply Qle_bool_iff.
Qed.

(** C3: non-maximum suppression is idempotent: suppressing the result of a
    suppression again, with the same threshold, returns it unchanged. *)
Theorem suppress_idempotent (features : list GeoFeature) (t : Q) :
  suppress (suppress features t) t = suppress features t.
Proof.
  set (G := fun l => suppress_label t (filter (fun f => f_label f = l) features)).
  assert (HG : ∀ l, l ∈ labels features →
                 G l ≠ [] ∧ Forall (fun f => f_label f = l) (G l))
    by apply suppress_groups.
  assert (Hnd : NoDup (labels features)) by apply NoDup_remove_dups.
  change (suppress features t) with (flat_map G (labels features)).
  unfold suppress at 1.
  rewrite (labels_groups G _ Hnd HG).
  apply flat_map_eq_on. intros l Hl.
  rewrite (filter_groups G _ l Hnd); [apply suppress_label_idem | | done].
  intros l' Hl'. by apply HG.
Qed.

(** * Concrete instances *)

Lemma example_local_well_typed : well_typed (vm_ (this example_local)).
Proof. apply (bool_decide_unpack _). vm_compute. exact I. Qed.

Lemma example_geojson_well_typed : well_typed (vm_ (this example_geojson)).
Proof. apply (bool_decide_unpack _). vm_compute. exact I. Qed.

(** The overlap threshold 3/2 lies outside (0,1], and yet a detection run
    given it on the command line is read without error and started with
    that threshold. *)
Lemma overlap_threshold_out_of_range_accepted :
  (∃ s', @parseArgsAndProcess example_environment 6 example_command_line
           (example_state example_init) = Return tt s'
         ∧ nms (this s') = true
         ∧ overlap (this s') = 3 # 2
         ∧ process_calls s' = [this s'])
  ∧ ¬ (0 < 3 # 2 ∧ 3 # 2 <= 1)%Q.
Proof.
  split.
  - eexists. split; [vm_compute; reflexivity |].
    vm_compute. repeat split; reflexivity.
  - intros [_ Hle]. vm_compute in Hle. by apply Hle.
Qed.

Lemma overlap_threshold_not_validated_witness :
  ∃ s', readFeatureDetectionArgs example_local = Return tt s'
        ∧ nms (this s') = true
        ∧ overlap (this s') = 3 # 2
        ∧ process_calls s' = process_calls example_local.
Proof.
  apply (overlap_threshold_not_validated example_local (3 # 2) [] false).
  - apply (bool_decide_unpack _). vm_compute. exact I.
  - vm_compute. reflexivity.
Defined.

Lemma step_size_default_log2_witness :
  ∃ s', readFeatureDetectionArgs example_local = Return tt s'
        ∧ stepSize_ (this s') (mkSize 256 128) = mkPoint 8 8.
Proof.
  destruct (step_size_default_log2 example_local (mkSize 256 128))
    as (s' & Hr & Hnone & _).
  - apply (bool_decide_unpack _). vm_compute. exact I.
  - exists s'. split; [exact Hr |].
    destruct Hnone as [Hs _]; [vm_compute; reflexivity | exact Hs].
Defined.

Lemma geometry_type_read_witness :
  ∃ s', @readOutputArgs example_environment example_local = Return tt s'
        ∧ geometryType (this s') = POINT.
Proof.
  destruct (@geometry_type_read example_environment example_local
              "out/roads.shp" false) as [_ Hty].
  - apply (bool_decide_unpack _). vm_compute. exact I.
  - vm_compute. reflexivity.
  - destruct (Hty "Point" false) as (_ & Hpoint & _); [vm_compute; reflexivity |].
    apply Hpoint. vm_compute. reflexivity.
Defined.

Lemma nms_enabled_iff_present_witness :
  ∃ s', readFeatureDetectionArgs example_geojson = Return tt s'
        ∧ nms (this s') ≠ true
        ∧ overlap (this s') = 30%Q.
Proof.
  destruct (nms_enabled_iff_present example_geojson)
    as (s' & Hr & Hiff & _ & _ & Hnone).
  - apply (bool_decide_unpack _). vm_compute. exact I.
  - vm_compute. reflexivity.
  - exists s'. split; [exact Hr |]. split.
    + intros Ht. apply Hiff in Ht. vm_compute in Ht. by destruct Ht.
    + rewrite Hnone; vm_compute; reflexivity.
Defined.

Lemma layer_name_read_witness :
  ∃ s', @readOutputArgs example_environment example_local = Return tt s'
        ∧ layerName (this s') = "roads"
        ∧ records (logging s') =
            [(warning, "output-layer argument is ignored for Shapefile output.")].
Proof.
  destruct (@layer_name_read example_environment example_local
              "out/roads.shp" false POINT) as (s' & Hr & Hshp & _).
  - apply (bool_decide_unpack _). vm_compute. exact I.
  - vm_compute. reflexivity.
  - vm_compute. reflexivity.
  - exists s'. split; [exact Hr |].
    destruct Hshp as [Hl Hw]; [vm_compute; reflexivity |].
    split; [rewrite Hl | rewrite Hw]; vm_compute; reflexivity.
Defined.

Lemma producer_info_uniform_witness :
  ∃ s', @readOutputArgs example_environment example_local = Return tt s'
        ∧ producerInfo (this s') = true.
Proof.
  destruct (@producer_info_uniform example_environment example_local
              "out/roads.shp" false POINT) as [(s' & Hr & Hiff) _].
  - apply (bool_decide_unpack _). vm_compute. exact I.
  - vm_compute. reflexivity.
  - vm_compute. reflexivity.
  - exists s'. split; [exact Hr |]. apply Hiff. vm_compute. by eexists.
Defined.

Lemma bbox_required_for_web_only_witness :
  (∃ s', @readArgs example_environment example_web =
         Throw (Error "The --bbox argument is required for web services.") s'
         ∧ token (this s') = token (this example_web)
         ∧ process_calls s' = [])
  ∧ (∃ s', @readArgs example_environment example_geojson = Return tt s'
           ∧ bbox (this s') = None
           ∧ source (this s') = LOCAL).
Proof.
  split.
  - destruct (@bbox_required_for_web_only example_environment example_web)
      as [Hweb _]; [vm_compute; reflexivity |].
    destruct (Hweb "DGCS" false) as (e & s' & Hr & He & Ht & _ & _ & _ & _ & _ & Hp);
      [vm_compute; reflexivity |].
    exists s'. rewrite <- He by (vm_compute; discriminate).
    split; [exact Hr |]. split; [exact Ht | exact Hp].
  - destruct (@bbox_required_for_web_only example_environment example_geojson)
      as [_ Hlocal]; [vm_compute; reflexivity |].
    destruct (Hlocal "scene.tif" "cars.gbdxm" "out/roads.geojson"
                false false false POLYGON) as (s' & Hr & Hb & Hs & _);
      try (vm_compute; reflexivity).
    + apply (bool_decide_unpack _). vm_compute. exact I.
    + exists s'. split; [exact Hr |]. split; [exact Hb | exact Hs].
Defined.



(** * Further properties of the option handling *)

(** ** Runs are started last, and at most once *)

Section Runs.
Context `{Environment}.

Lemma frame_OSN_LOG (lvl : level_t) (msg : string) : frame (OSN_LOG lvl msg).
Proof. intros []. by cbn. Qed.

Lemma frame_addSink (k : sink) : frame (addSink k).
Proof. intros []. by cbn. Qed.

Lemma frame_removeSink (h : nat) : frame (removeSink h).
Proof. intros []. by cbn. Qed.

Lemma frame_readOptional_strings (k : string) (b : bool) :
  frame (readOptional_strings k b).
Proof.
  unfold readOptional_strings.
  apply frame_bind; [apply frame_find | intros [v|]; [| apply frame_ret]].
  apply frame_bind; [apply frame_as_ | intros x; apply frame_ret].
Qed.

(** Decompose a reading function into framed steps. *)
Ltac frame_steps :=
  repeat first
    [ apply frame_DG_CHECK | apply frame_readRequired | apply frame_promptForPassword
    | apply frame_present | apply frame_readOptional_ptr
    | apply frame_readOptional_strings
    | apply frame_readOptional; intros ? []; reflexivity
    | apply frame_OSN_LOG | apply frame_addSink | apply frame_removeSink
    | apply frame_printUsage
    | apply frame_get | apply frame_ret | apply frame_throw
    | apply frame_modify; intros []; reflexivity
    | apply frame_bind; [| intros ?] | apply frame_if
    | match goal with
      | |- frame (match ?x with _ => _ end) => destruct x
      end ].

Lemma frame_readOutputArgs : frame readOutputArgs.
Proof. unfold readOutputArgs. frame_steps. Qed.

Lemma frame_readFeatureDetectionArgs : frame readFeatureDetectionArgs.
Proof. unfold readFeatureDetectionArgs. frame_steps. Qed.

Lemma frame_readLoggingArgs : frame readLoggingArgs.
Proof. unfold readLoggingArgs. frame_steps. Qed.




Lemma frame_runs_kept {A} (c : M A) : frame c → runs_kept c.
Proof. intros Hc s. specialize (Hc s). by destruct (c s) as [? ?|? ?], Hc. Qed.

Lemma runs_kept_bind {A B} (c : M A) (k : A → M B) :
  runs_kept c → (∀ a, runs_kept (k a)) → runs_kept (bind c k).
Proof.
  intros Hc Hk s. unfold bind. specialize (Hc s).
  destruct (c s) as [a s1|e s1]; [| done].
  specialize (Hk a s1). destruct (k a s1); congruence.
Qed.

Lemma runs_kept_po_store (opts : parsed_options) : runs_kept (po_store opts).
Proof.
  intros s. unfold po_store. destruct (store _ _ _); [done |]. by destruct s.
Qed.

Lemma runs_kept_for_each {A} (l : list A) (body : A → M unit) :
  (∀ x, runs_kept (body x)) → runs_kept (for_each l body).
Proof.
  intros Hb. induction l as [|x l IH]; cbn.
  - by intros s.
  - apply runs_kept_bind; [apply Hb | by intros _].
Qed.

Lemma frame_notify : frame notify.
Proof.
  unfold notify.
  apply frame_bind; [apply frame_find | intros [[[] ?]|]];
    first [apply frame_DG_CHECK | apply frame_ret].
Qed.

Lemma runs_kept_parseArgs (argc : Z) (argv : parsed_options) :
  runs_kept (parseArgs argc argv).
Proof.
  unfold parseArgs.
  repeat first
    [ apply runs_kept_po_store
    | apply frame_runs_kept;
        first [ apply frame_notify | apply frame_readOptional_strings
              | apply frame_readRequired | apply frame_get
              | apply frame_ret | apply frame_throw | apply frame_printUsage
              | apply frame_modify; intros []; reflexivity ]
    | apply runs_kept_for_each; intros ?
    | apply runs_kept_bind; [| intros ?]
    | match goal with
      | |- runs_kept (match ?x with _ => _ end) => destruct x
      | |- runs_kept (if ?x then _ else _) => destruct x
      end ].
Qed.

Lemma runs_kept_setupConsoleLogging : runs_kept setupConsoleLogging.
Proof.
  apply frame_runs_kept. unfold setupConsoleLogging.
  repeat first
    [ apply frame_addSink | apply frame_modify; intros []; reflexivity
    | apply frame_bind; [| intros ?] ].
Qed.

Lemma ends_with_run_bind {A B} (c : M A) (k : A → M B) :
  runs_kept c → (∀ a, ends_with_run (k a)) → ends_with_run (bind c k).
Proof.
  intros Hc Hk s. unfold bind. specialize (Hc s).
  destruct (c s) as [a s1|e s1]; [| done].
  specialize (Hk a s1). destruct (k a s1); congruence.
Qed.

Lemma ends_with_run_osn_process : ends_with_run osn_process.
Proof. by intros []. Qed.

Lemma ends_with_run_readArgs : ends_with_run readArgs.
Proof.
  unfold readArgs.
  repeat first
    [ apply ends_with_run_osn_process
    | apply ends_with_run_bind; [apply frame_runs_kept | intros ?] ].
  - apply frame_readOptional_ptr.
  - apply frame_modify; intros []; reflexivity.
  - apply frame_readOptional_ptr.
  - match goal with |- frame (match ?x with _ => _ end) => destruct x end.
    + apply frame_bind; [apply frame_parseService | intros ?].
      apply frame_bind; [apply frame_modify; intros []; reflexivity | intros _].
      apply frame_readWebServiceArgs.
    + apply frame_bind; [apply frame_readRequired | intros ?].
      apply frame_bind; [apply frame_modify; intros []; reflexivity | intros _].
      apply frame_modify; intros []; reflexivity.
  - apply frame_readProcessingArgs.
  - apply frame_readOutputArgs.
  - apply frame_readFeatureDetectionArgs.
  - apply frame_readLoggingArgs.
  - apply frame_present.
  - frame_steps.
Qed.


End Runs.

(** ** What parsing leaves in the option map *)


Lemma xparse_type (k : string) (old : option any) (new v : any) :
  xparse k old new = inr v → type_of v = type_of new.
Proof.
  destruct old as [[]|], new; cbn; intros Hx; by inversion Hx.
Qed.

Lemma store_options_typed (opts : parsed_options) (xm xm' : variables_map)
    (nf nf' : gset string) :
  store_options opts xm nf = inr (xm', nf') →
  typed_options opts → well_typed xm → well_typed xm'.
Proof.
  revert xm nf. induction opts as [|[k tok] opts IH]; intros xm nf Hs Ht Hwt; cbn in Hs.
  - by injection Hs as <- <-.
  - apply Forall_cons in Ht as [Hk Ht]. cbn in Hk.
    destruct (decide (k ∈ m_final xm)); [by eapply IH |].
    destruct (xparse _ _ _) as [e|v] eqn:Hx; [done |].
    eapply IH; [exact Hs | done |].
    intros k' x. cbn. destruct (decide (k = k')) as [<- | Hne].
    + rewrite lookup_insert_eq. intros [= <-]. cbn.
      by rewrite (xparse_type _ _ _ _ Hx).
    + rewrite lookup_insert_ne by done. apply Hwt.
Qed.

Lemma apply_defaults_typed (defaults : list (string * any))
    (mp : gmap string variable_value) (fin : gset string) :
  typed_options defaults → well_typed (mkVm mp fin) →
  well_typed (mkVm (apply_defaults defaults mp) fin).
Proof.
  revert mp. induction defaults as [|[k def] rest IH]; intros mp Ht Hwt; cbn; [done |].
  apply Forall_cons in Ht as [Hk Ht]. cbn in Hk.
  apply IH; [done |]. destruct (mp !! k) eqn:Hmk; [done |].
  intros k' x. cbn. destruct (decide (k = k')) as [<- | Hne].
  - rewrite lookup_insert_eq. by intros [= <-].
  - rewrite lookup_insert_ne by done. apply Hwt.
Qed.

Lemma store_typed (defaults : list (string * any)) (opts : parsed_options)
    (xm xm' : variables_map) :
  store defaults opts xm = inr xm' →
  typed_options defaults → typed_options opts → well_typed xm → well_typed xm'.
Proof.
  unfold store. intros Hs Hd Ho Hwt.
  destruct (store_options opts xm ∅) as [e|[xm1 nf]] eqn:Hso; [done |].
  injection Hs as <-.
  apply (apply_defaults_typed _ _ _ Hd).
  pose proof (store_options_typed _ _ _ _ _ Hso Ho Hwt) as H1.
  intros k x. apply H1.
Qed.

Lemma declared_defaults_typed (a : OpenSkyNetArgs) (MAPSAPI_MAPID : string) :
  typed_options (declared_defaults a MAPSAPI_MAPID).
Proof. unfold declared_defaults. by repeat constructor. Qed.

(** A defaulted entry stays as it is while no source mentions the option. *)
Lemma store_default_kept (defaults : list (string * any)) (k : string) (def : any)
    (opts : parsed_options) (xm xm' : variables_map) :
  store defaults opts xm = inr xm' →
  occurrences k opts = [] →
  m xm !! k = Some (mkValue def true) →
  m xm' !! k = Some (mkValue def true).
Proof.
  unfold store. intros Hs Hocc Hk.
  destruct (store_options opts xm ∅) as [e|[xm1 nf]] eqn:Hso; [done |].
  injection Hs as <-. cbn.
  apply (store_options_skip k) in Hso as [Hm _]; [| by right].
  apply apply_defaults_Some. by rewrite Hm.
Qed.

Lemma apply_defaults_None (defaults : list (string * any))
    (mp : gmap string variable_value) (k : string) (def : any) :
  mp !! k = None →
  head (occurrences k defaults) = Some (k, def) →
  apply_defaults defaults mp !! k = Some (mkValue def true).
Proof.
  revert mp. induction defaults as [|[k' d'] rest IH]; intros mp Hk Hd; [done |].
  cbn. destruct (decide (k' = k)) as [-> | Hne].
  - rewrite occurrences_cons_eq in Hd. injection Hd as ->.
    rewrite Hk. apply apply_defaults_Some, lookup_insert_eq.
  - rewrite occurrences_cons_ne in Hd by done.
    apply IH; [| done]. destruct (mp !! k'); [done |].
    by rewrite lookup_insert_ne.
Qed.

Section Parsed.
Context `{Environment}.

Lemma load_all_inv (P : variables_map → Prop) (files : list string) (s s' : St) :
  (∀ f o xm xm', parse_config_file f = Some o →
                 store (optionsDescription_ (this s)) o xm = inr xm' → P xm → P xm') →
  for_each files load s = Return tt s' →
  P (vm_ (this s)) →
  P (vm_ (this s')) ∧ optionsDescription_ (this s') = optionsDescription_ (this s).
Proof.
  intros Hstep. revert s Hstep.
  induction files as [|f files IH]; intros s Hstep Hl HP; cbn in Hl.
  - by injection Hl as <-.
  - apply bind_inv in Hl as ([] & s1 & Hf1 & Hl).
    apply load_inv in Hf1 as (opts & Hp & Hst & Hd).
    destruct (IH s1) as [HP' Hd']; try done.
    + rewrite Hd. exact Hstep.
    + by eapply Hstep.
    + split; [done | congruence].
Qed.

(** The steps of a [parseArgs] that returns. *)
Lemma parseArgs_steps (argc : Z) (argv : parsed_options) (s s' : St) :
  parseArgs argc argv s = Return tt s' →
  ∃ s1 s2 s3 configFiles str,
    (argc <? 2)%Z = false
    ∧ po_store argv s = Return tt s1
    ∧ po_store parse_environment s1 = Return tt s2
    ∧ readOptional_strings "config" splitArgs_default s2 = Return configFiles s2
    ∧ for_each (rev (default [] configFiles)) load s2 = Return tt s3
    ∧ readRequired as_string "action" (Some "Action must be specified.") true s3
      = Return str s3
    ∧ Action_eqb (parseAction str) ACTION_UNKNOWN = false
    ∧ s' = set_this (set_action (parseAction str)) s3.
Proof.
  unfold parseArgs. intros Hp.
  apply bind_inv in Hp as ([] & s0 & Hargc & Hp).
  destruct (argc <? 2)%Z eqn:Hlt.
  { apply bind_inv in Hargc as (? & ? & _ & Hthrow). done. }
  injection Hargc as <-.
  apply bind_inv in Hp as ([] & s1 & Hst1 & Hp).
  apply bind_inv in Hp as ([] & s1' & Hn & Hp). apply notify_inv in Hn as ->.
  apply bind_inv in Hp as ([] & s2 & Hst2 & Hp).
  apply bind_inv in Hp as (configFiles & s2' & Hcf & Hp).
  assert (s2' = s2) as ->.
  { revert Hcf. unfold readOptional_strings, find, get, bind, as_, ret, throw.
    destruct (m (vm_ (this s2)) !! "config") as [[[] ?]|]; by intros [= <- <-]. }
  apply bind_inv in Hp as ([] & s3 & Hloop & Hp).
  apply bind_inv in Hp as (str & s3' & Hact & Hp).
  assert (s3' = s3) as ->.
  { revert Hact.
    unfold readRequired, find, get, bind, as_, ret, throw, printUsage, cout_put.
    destruct (m (vm_ (this s3)) !! "action") as [[[] ?]|]; by intros [= <- <-]. }
  apply bind_inv in Hp as ([] & s4 & Hmod & Hp). injection Hmod as <-.
  apply bind_inv in Hp as (a & s5 & Hget & Hp). injection Hget as <- <-.
  destruct (Action_eqb _ _) eqn:Hact'.
  { apply bind_inv in Hp as (? & ? & _ & Hthrow). done. }
  injection Hp as <-.
  exists s1, s2, s3, configFiles, str. repeat split; try done.
  destruct configFiles as [files|]; [exact Hloop | by injection Hloop as <-].
Qed.

(** A property of the option map that every [store] of a source keeps
    holds when [parseArgs] returns. *)
Lemma parseArgs_invariant (P : variables_map → Prop) (argc : Z)
    (argv : parsed_options) (s s' : St) :
  (∀ o xm xm',
     o = argv ∨ o = parse_environment ∨ (∃ f, parse_config_file f = Some o) →
     store (optionsDescription_ (this s)) o xm = inr xm' → P xm → P xm') →
  parseArgs argc argv s = Return tt s' →
  P (vm_ (this s)) → P (vm_ (this s')).
Proof.
  intros Hstep Hp HP.
  apply parseArgs_steps in Hp
    as (s1 & s2 & s3 & cf & str & _ & H1 & H2 & _ & Hl & _ & _ & ->).
  apply po_store_inv in H1 as [H1 Hd1]. apply po_store_inv in H2 as [H2 Hd2].
  rewrite Hd1 in H2.
  assert (P (vm_ (this s3))) as H3.
  { eapply (load_all_inv P); [| exact Hl |].
    - intros f o xm xm' Hf. rewrite Hd2, Hd1. apply Hstep. right. right. by exists f.
    - eapply Hstep; [| exact H2 |]; [by right; left |].
      eapply Hstep; [| exact H1 | exact HP]. by left. }
  by destruct s3 as [[] ? ? ?].
Qed.

(** X5: when every source holds values of the declared types, so does the
    option map that [parseArgs] leaves. *)
Theorem parseArgs_well_typed (argc : Z) (argv : parsed_options) (s s' : St) :
  typed_options (optionsDescription_ (this s)) →
  typed_options argv →
  typed_options parse_environment →
  (∀ f o, parse_config_file f = Some o → typed_options o) →
  well_typed (vm_ (this s)) →
  parseArgs argc argv s = Return tt s' →
  well_typed (vm_ (this s')).
Proof.
  intros Hd Ha He Hf Hwt Hp.
  apply (parseArgs_invariant well_typed argc argv s s'); [| done | done].
  intros o xm xm' Ho Hst. eapply store_typed; [exact Hst | done |].
  destruct Ho as [-> | [-> | [f Ho]]]; [done | done | by eapply Hf].
Qed.

(** X4: an option that no source mentions holds its declared default, marked
    as defaulted, when [parseArgs] returns. *)
Theorem unmentioned_option_keeps_default (argc : Z) (argv : parsed_options)
    (s s' : St) (k : string) (def : any) :
  vm_ (this s) = empty_vm →
  head (occurrences k (optionsDescription_ (this s))) = Some (k, def) →
  occurrences k argv = [] →
  occurrences k parse_environment = [] →
  (∀ f o, parse_config_file f = Some o → occurrences k o = []) →
  parseArgs argc argv s = Return tt s' →
  m (vm_ (this s')) !! k = Some (mkValue def true).
Proof.
  intros He Hd Ha Hen Hf Hp.
  pose proof Hp as Hsteps.
  apply parseArgs_steps in Hsteps
    as (s1 & s2 & s3 & cf & str & _ & H1 & H2 & _ & Hl & _ & _ & ->).
  apply po_store_inv in H1 as [H1 Hd1]. apply po_store_inv in H2 as [H2 Hd2].
  assert (m (vm_ (this s1)) !! k = Some (mkValue def true)) as Hk1.
  { revert H1. unfold store. rewrite He.
    destruct (store_options argv empty_vm ∅) as [e|[xm1 nf]] eqn:Hso; [done |].
    intros [= <-]. cbn.
    apply (store_options_skip k) in Hso as [Hm _]; [| by right].
    apply apply_defaults_None; [| done]. rewrite Hm. apply lookup_empty. }
  assert (m (vm_ (this s2)) !! k = Some (mkValue def true)) as Hk2
    by (by eapply store_default_kept).
  assert (m (vm_ (this s3)) !! k = Some (mkValue def true)) as Hk3.
  { eapply (load_all_inv (fun xm => m xm !! k = Some (mkValue def true)));
      [| exact Hl | exact Hk2].
    intros f o xm xm' Hfo Hst. eapply store_default_kept; [exact Hst |].
    by eapply Hf. }
  by destruct s3 as [[] ? ? ?].
Qed.

(** X3: an option given once in the environment, and not on the command
    line, keeps that value whatever the configuration files say. *)
Theorem environment_beats_config_files (argc : Z) (argv : parsed_options)
    (s s' : St) (k : string) (v : any) :
  vm_ (this s) = empty_vm →
  occurrences k argv = [] →
  occurrences k parse_environment = [(k, v)] →
  parseArgs argc argv s = Return tt s' →
  m (vm_ (this s')) !! k = Some (mkValue v false).
Proof.
  intros He Ha Hen Hp.
  apply parseArgs_inv in Hp as (s1 & s2 & s3 & cf & H1 & H2 & _ & Hl & ->).
  assert (fixed k (mkValue v false) (vm_ (this s2))) as Hf.
  { eapply store_once; [exact H2 | | done].
    eapply store_unset; [exact H1 | rewrite He; apply unset_empty | done]. }
  by eapply load_all_fixed in Hf as [_ Hf].
Qed.

(** X6: when [parseArgs] returns, the action is a known one: it is what the
    stored [action] string stands for, and never the unknown action. *)
Theorem parseArgs_action_known (argc : Z) (argv : parsed_options) (s s' : St) :
  parseArgs argc argv s = Return tt s' →
  (2 <= argc)%Z
  ∧ ∃ str d, m (vm_ (this s')) !! "action" = Some (mkValue (any_string str) d)
             ∧ action (this s') = parseAction str
             ∧ action (this s') ≠ ACTION_UNKNOWN.
Proof.
  intros Hp.
  apply parseArgs_steps in Hp
    as (s1 & s2 & s3 & cf & str & Hargc & _ & _ & _ & _ & Hact & Hk & ->).
  split; [by apply Z.ltb_ge |].
  revert Hact. unfold readRequired, find, get, bind, as_, ret, throw, printUsage, cout_put.
  destruct (m (vm_ (this s3)) !! "action") as [[[] d]|] eqn:Hm; try done.
  intros [= ->]. exists str, d.
  destruct s3 as [[] ? ? ?]; cbn in *. repeat split; [done |].
  intros Hu. by rewrite Hu in Hk.
Qed.

End Parsed.

(** ** Members that reading leaves alone *)


Section Keeps.
Context `{Environment}.
Context {X : Type} (f : OpenSkyNetArgs → X).

Lemma keeps_ret {A} (a : A) : keeps f (ret a).
Proof. by intros s. Qed.

Lemma keeps_throw {A} (e : exception) : keeps f (@throw A e).
Proof. by intros s. Qed.

Lemma keeps_get {A} (g : OpenSkyNetArgs → A) : keeps f (get g).
Proof. by intros s. Qed.

Lemma keeps_bind {A B} (c : M A) (k : A → M B) :
  keeps f c → (∀ a, keeps f (k a)) → keeps f (bind c k).
Proof.
  intros Hc Hk s. unfold bind. specialize (Hc s).
  destruct (c s) as [a s1|e s1]; [| done].
  specialize (Hk a s1). destruct (k a s1); congruence.
Qed.

Lemma keeps_modify (g : OpenSkyNetArgs → OpenSkyNetArgs) :
  (∀ a, f (g a) = f a) → keeps f (modify g).
Proof. intros Hg s. cbn. apply Hg. Qed.

(** A step that does not touch the object. *)
Lemma keeps_this {A} (c : M A) :
  (∀ s, match c s with Return _ s' | Throw _ s' => this s' = this s end) →
  keeps f c.
Proof. intros Hc s. specialize (Hc s). destruct (c s); by rewrite Hc. Qed.

Lemma keeps_if {A} (b : bool) (c1 c2 : M A) :
  keeps f c1 → keeps f c2 → keeps f (if b then c1 else c2).
Proof. by destruct b. Qed.

Lemma keeps_find (k : string) : keeps f (find k).
Proof. apply keeps_get. Qed.

Lemma keeps_as_ {T} (cast : any → option T) (v : variable_value) :
  keeps f (as_ cast v).
Proof. unfold as_. destruct (cast _); [apply keeps_ret | apply keeps_throw]. Qed.

Lemma keeps_DG_CHECK (b : bool) (msg : string) : keeps f (DG_CHECK b msg).
Proof. unfold DG_CHECK. destruct b; [apply keeps_ret | apply keeps_throw]. Qed.

Lemma keeps_cout_put (o : output) : keeps f (cout_put o).
Proof. by intros []. Qed.

Lemma keeps_OSN_LOG (lvl : level_t) (msg : string) : keeps f (OSN_LOG lvl msg).
Proof. by intros []. Qed.

Lemma keeps_addSink (k : sink) : keeps f (addSink k).
Proof. by intros []. Qed.

Lemma keeps_removeSink (h : nat) : keeps f (removeSink h).
Proof. by intros []. Qed.

Lemma keeps_osn_process : keeps f osn_process.
Proof. by intros []. Qed.

Lemma keeps_present (k : string) : keeps f (present k).
Proof.
  unfold present. apply keeps_bind; [apply keeps_find | intros ?; apply keeps_ret].
Qed.

Lemma keeps_readOptional_ptr {T} (cast : any → option T) (k : string) :
  keeps f (readOptional_ptr cast k).
Proof.
  unfold readOptional_ptr.
  apply keeps_bind; [apply keeps_find | intros [v|]; [| apply keeps_ret]].
  apply keeps_bind; [apply keeps_as_ | intros x; apply keeps_ret].
Qed.

Lemma keeps_readOptional_strings (k : string) (b : bool) :
  keeps f (readOptional_strings k b).
Proof.
  unfold readOptional_strings.
  apply keeps_bind; [apply keeps_find | intros [v|]; [| apply keeps_ret]].
  apply keeps_bind; [apply keeps_as_ | intros x; apply keeps_ret].
Qed.

Lemma keeps_readOptional {T} (cast : any → option T) (k : string)
    (assign : T → OpenSkyNetArgs → OpenSkyNetArgs) :
  (∀ x a, f (assign x a) = f a) → keeps f (readOptional cast k assign).
Proof.
  intros Ha. unfold readOptional.
  apply keeps_bind; [apply keeps_find | intros [v|]; [| apply keeps_ret]].
  apply keeps_bind; [apply keeps_as_ | intros x].
  apply keeps_bind; [by apply keeps_modify | intros _; apply keeps_ret].
Qed.

Lemma keeps_readRequired {T} (cast : any → option T) (k : string)
    (msg : option string) (u : bool) :
  keeps f (readRequired cast k msg u).
Proof.
  unfold readRequired.
  apply keeps_bind; [apply keeps_find | intros [v|]; [apply keeps_as_ |]].
  apply keeps_bind.
  - destruct u; [apply keeps_cout_put | apply keeps_ret].
  - intros _. destruct msg; apply keeps_throw.
Qed.

Lemma keeps_parseService (service : string) : keeps f (parseService service).
Proof.
  unfold parseService.
  repeat (apply keeps_if; [apply keeps_ret |]). apply keeps_throw.
Qed.

End Keeps.

(** Decompose a reading function into steps that keep [f]; what remains
    are the assignments to other members. *)
Ltac keeps_steps :=
  repeat first
    [ apply keeps_DG_CHECK | apply keeps_readRequired | apply keeps_present
    | apply keeps_readOptional_ptr | apply keeps_readOptional_strings
    | apply keeps_parseService
    | apply keeps_OSN_LOG | apply keeps_addSink | apply keeps_removeSink
    | apply keeps_cout_put | apply keeps_osn_process
    | apply keeps_get | apply keeps_ret | apply keeps_throw
    | apply keeps_readOptional; intros ? []; reflexivity
    | apply keeps_modify; intros []; reflexivity
    | apply keeps_bind; [| intros ?] | apply keeps_if
    | match goal with
      | |- keeps _ (match ?x with _ => _ end) => destruct x
      end ].

Section Help.
Context `{Environment}.

Lemma keeps_action_readArgs : keeps action readArgs.
Proof.
  unfold readArgs, readWebServiceArgs, promptForPassword, readProcessingArgs,
    readOutputArgs, readFeatureDetectionArgs, readLoggingArgs, printUsage.
  keeps_steps.
Qed.

Lemma keeps_vm_readArgs : keeps vm_ readArgs.
Proof.
  unfold readArgs, readWebServiceArgs, promptForPassword, readProcessingArgs,
    readOutputArgs, readFeatureDetectionArgs, readLoggingArgs, printUsage.
  keeps_steps.
Qed.

(** What [maybeDisplayHelp] decides, and that it only prints. *)
Lemma maybeDisplayHelp_returns (s s' : St) (shown : bool) :
  maybeDisplayHelp s = Return shown s' →
  this s' = this s
  ∧ logging s' = logging s
  ∧ process_calls s' = process_calls s
  ∧ (if shown
     then (action (this s) = HELP ∨ is_Some (m (vm_ (this s)) !! "help-topic"))
          ∧ ∃ topic, cout s' = (cout s ++ [Usage topic])%list
     else action (this s) ≠ HELP ∧ m (vm_ (this s)) !! "help-topic" = None
          ∧ cout s' = cout s).
Proof.
  destruct s as [a L c pc]. unfold maybeDisplayHelp.
  unfold readOptional_ptr, find, get, bind, ret, as_, throw, DG_CHECK, printUsage, cout_put.
  cbn.
  destruct (Action_eqb (action a) HELP) eqn:Ha;
    destruct (m (vm_ a) !! "help-topic") as [[[] ?]|] eqn:Ht;
    cbn; rewrite ?Ht; cbn; try done.
  all: try match goal with
           | |- context [negb ?b] => destruct (negb b); cbn; [| done]
           | |- context [String.eqb ?x ?y] => destruct (String.eqb x y); cbn; [| done]
           end.
  all: intros [= <- <-]; cbn.
  all: repeat split; try (by eexists).
  all: try (left; by destruct (action a)).
  all: try (right; by eexists).
  intros Hh. by rewrite Hh in Ha.
Qed.

(** X2: a call of [parseArgsAndProcess] that returns has either shown help
    and started no run, or it has started exactly one run and that run is
    for an action other than help, with no help topic. *)
Theorem help_or_run (argc : Z) (argv : parsed_options) (s s' : St) :
  parseArgsAndProcess argc argv s = Return tt s' →
  ((action (this s') = HELP ∨ is_Some (m (vm_ (this s')) !! "help-topic"))
   ∧ process_calls s' = process_calls s)
  ∨ (action (this s') ≠ HELP
     ∧ action (this s') ≠ ACTION_UNKNOWN
     ∧ m (vm_ (this s')) !! "help-topic" = None
     ∧ process_calls s' = (process_calls s ++ [this s'])%list).
Proof.
  unfold parseArgsAndProcess. intros Hp.
  apply bind_inv in Hp as ([] & s1 & H1 & Hp).
  apply bind_inv in Hp as ([] & s2 & H2 & Hp).
  apply bind_inv in Hp as (shown & s3 & H3 & Hp).
  pose proof (runs_kept_setupConsoleLogging s) as R1. rewrite H1 in R1.
  pose proof (runs_kept_parseArgs argc argv s1) as R2. rewrite H2 in R2.
  assert (action (this s2) ≠ ACTION_UNKNOWN) as Hknown.
  { apply parseArgs_steps in H2
      as (? & ? & s2' & ? & str & _ & _ & _ & _ & _ & _ & Hk & ->).
    destruct s2' as [[] ? ? ?]; cbn in *. intros Hu. by rewrite Hu in Hk. }
  apply maybeDisplayHelp_returns in H3 as (Hthis & _ & R3 & Hshown).
  destruct shown.
  - injection Hp as <-. left. rewrite Hthis. split; [tauto | congruence].
  - right. destruct Hshown as (Hna & Hnt & _).
    pose proof (keeps_action_readArgs s3) as Ka. rewrite Hp in Ka.
    pose proof (keeps_vm_readArgs s3) as Kv. rewrite Hp in Kv.
    pose proof (ends_with_run_readArgs s3) as Kr. rewrite Hp in Kr.
    rewrite Ka, Kv, Kr, Hthis. repeat split; try done. congruence.
Qed.

End Help.

(** ** Strings *)

Lemma to_lower_char_idem (c : ascii) :
  to_lower_char (to_lower_char c) = to_lower_char c.
Proof. by destruct c as [[] [] [] [] [] [] [] []]. Qed.

(** Lower-casing a string twice is lower-casing it once. *)
Lemma to_lower_idem (s : string) : to_lower (to_lower s) = to_lower s.
Proof.
  induction s as [|c s IH]; [done |].
  change (String (to_lower_char (to_lower_char c)) (to_lower (to_lower s))
          = String (to_lower_char c) (to_lower s)).
  by rewrite to_lower_char_idem, IH.
Qed.

Lemma has_colon_append (a b : string) :
  has_colon (a +:+ b) = has_colon a || has_colon b.
Proof.
  induction a as [|c a IH]; [done |].
  change (has_colon (String c a +:+ b)) with (Ascii.eqb c ":" || has_colon (a +:+ b)).
  change (has_colon (String c a)) with (Ascii.eqb c ":" || has_colon a).
  by rewrite IH, orb_assoc.
Qed.

Section Options.
Context `{Environment}.

(** X8: however the format was written, the output format that
    [readOutputArgs] leaves in the object is in lower case. *)
Theorem output_format_lower_case (s s' : St) :
  readOutputArgs s = Return tt s' →
  to_lower (outputFormat (this s')) = outputFormat (this s')
  ∧ outputFormat (this s') =
      to_lower (default (outputFormat (this s)) (given s "format" ≫= as_string)).
Proof.
  unfold given. destruct s as [a L c pc]. cbn.
  unfold readOutputArgs. run.
  destruct (m (vm_ a) !! "format") as [[[] ?]|] eqn:Ef; run; try done.
  all: destruct (m (vm_ a) !! "output") as [[[] ?]|] eqn:Eo; run; try done.
  all: destruct (m (vm_ a) !! "output-layer") as [[[] ?]|] eqn:El; run; try done.
  all: destruct (String.eqb (to_lower _) "shp"); run.
  all: destruct (m (vm_ a) !! "type") as [[[] ?]|] eqn:Et; run; try done.
  all: repeat match goal with
              | |- context [if String.eqb ?x ?y then _ else _] =>
                  destruct (String.eqb x y); run; try done
              end.
  all: destruct (m (vm_ a) !! "producer-info"); run.
  all: intros [= <-]; cbn; split; [apply to_lower_idem | reflexivity].
Qed.

(** X9: what [readWebServiceArgs] makes of the credentials: given with a
    colon they are taken as they are; given without one, the user is
    prompted and the password is appended after a colon; not given, the
    member keeps its value and nothing is prompted. *)
Theorem credentials_completed (s s' : St) :
  readWebServiceArgs s = Return tt s' →
  match given s "credentials" ≫= as_string with
  | Some c =>
      if has_colon c
      then credentials (this s') = c ∧ cout s' = cout s
      else credentials (this s') = (c +:+ ":") +:+ readMaskedInputFromConsole
           ∧ has_colon (credentials (this s')) = true
           ∧ cout s' = (cout s ++ [Text "Enter your web service password: "])%list
  | None => credentials (this s') = credentials (this s) ∧ cout s' = cout s
  end.
Proof.
  unfold given. destruct s as [a L c pc]. cbn.
  unfold readWebServiceArgs, promptForPassword. run.
  destruct (bbox a); run; [| done].
  destruct (Source_eqb (source a) MAPS_API); run.
  all: try (destruct (m (vm_ a) !! "mapId") as [[[] ?]|] eqn:Em; run; try done).
  all: destruct (m (vm_ a) !! "token") as [[[] ?]|] eqn:Et; run; try done.
  all: destruct (m (vm_ a) !! "credentials") as [[[] ?]|] eqn:Ec; run; try done.
  all: try match goal with
           | |- context [has_colon ?x] => destruct (has_colon x) eqn:Hc; run
           end.
  all: destruct (m (vm_ a) !! "zoom") as [[[] ?]|] eqn:Ez; run; try done.
  all: destruct (m (vm_ a) !! "num-downloads") as [[[] ?]|] eqn:En; run; try done.
  all: intros [= <-]; cbn; repeat split.
  all: rewrite !has_colon_append; cbn; by rewrite orb_true_r.
Qed.

End Options.

Section Required.
Context `{Environment}.

(** X10: the required options are asked for in a fixed order, and the first
    one that is missing is the one reported: the input (image or service),
    then the model, then the output. *)
Theorem missing_option_reported (s : St) :
  well_typed (vm_ (this s)) →
  m (vm_ (this s)) !! "service" = None →
  (m (vm_ (this s)) !! "image" = None →
     ∃ s', readArgs s =
           Throw (Error "No input specified, either --service or --image argument must be present.") s'
           ∧ process_calls s' = process_calls s)
  ∧ (is_Some (m (vm_ (this s)) !! "image") →
     m (vm_ (this s)) !! "model" = None →
     ∃ s', readArgs s = Throw (Error "Missing required parameter --model.") s'
           ∧ source (this s') = LOCAL
           ∧ process_calls s' = process_calls s)
  ∧ (is_Some (m (vm_ (this s)) !! "image") →
     is_Some (m (vm_ (this s)) !! "model") →
     m (vm_ (this s)) !! "output" = None →
     ∃ s', readArgs s = Throw (Error "Missing required parameter --output.") s'
           ∧ source (this s') = LOCAL
           ∧ process_calls s' = process_calls s).
Proof.
  intros Hwt Hsv. destruct s as [a L c pc]. cbn in *.
  split; [| split].
  - intros Him. unfold readArgs. run.
    typed Hwt "bbox"; run; rewrite Hsv; run; rewrite Him; run; by eexists.
  - intros [vi Him] Hmo. unfold readArgs, readProcessingArgs. run.
    typed Hwt "bbox"; run; rewrite Hsv; run.
    all: typed Hwt "image"; try done; run.
    all: destruct (m (vm_ a) !! "cpu"); run.
    all: typed Hwt "max-utilization"; run; rewrite Hmo; run; by eexists.
  - intros [vi Him] [vm Hmo] Hout. unfold readArgs, readProcessingArgs, readOutputArgs. run.
    typed Hwt "bbox"; run; rewrite Hsv; run.
    all: typed Hwt "image"; try done; run.
    all: destruct (m (vm_ a) !! "cpu"); run.
    all: typed Hwt "max-utilization"; run.
    all: typed Hwt "model"; try done; run.
    all: typed Hwt "window-size"; run.
    all: typed Hwt "format"; run; rewrite Hout; run; by eexists.
Qed.

(** X11: for a web service with a bounding box the token is required: without
    it reading fails, and the user has not been asked for a password. *)
Theorem web_service_needs_token (s : St) (service : string) (src : Source)
    (d : bool) (r : Rect2d) (dr : bool) :
  m (vm_ (this s)) !! "service" = Some (mkValue (any_string service) d) →
  service_of (to_lower service) = Some src →
  m (vm_ (this s)) !! "bbox" = Some (mkValue (any_Rect2d r) dr) →
  m (vm_ (this s)) !! "token" = None →
  (src = MAPS_API →
   m (vm_ (this s)) !! "mapId" = None ∨
   ∃ i di, m (vm_ (this s)) !! "mapId" = Some (mkValue (any_string i) di)) →
  ∃ s', readArgs s = Throw (Error "Missing required parameter --token.") s'
        ∧ source (this s') = src
        ∧ bbox (this s') = Some r
        ∧ credentials (this s') = credentials (this s)
        ∧ cout s' = cout s
        ∧ process_calls s' = process_calls s.
Proof.
  intros Hsv Hsrc Hb Ht Hmap. unfold service_of in Hsrc.
  destruct s as [a L c pc]. cbn in *.
  unfold readArgs, readWebServiceArgs, parseService. run.
  rewrite Hb; run. rewrite Hsv; run.
  destruct (String.eqb (to_lower service) "dgcs");
    [| destruct (String.eqb (to_lower service) "evwhs");
       [| destruct (String.eqb (to_lower service) "maps-api"); [| done] ] ].
  all: injection Hsrc as <-; run.
  3: destruct Hmap as [Hm | (i & di & Hm)]; [done | | ]; rewrite Hm; run.
  all: rewrite Ht; run.
  all: eexists; split; [reflexivity |]; by destruct a.
Qed.

End Required.

Section LoggingOptions.
Context `{Environment}.


(** X12: [trace] and [debug] replace the console sink by one at that level,
    [trace] taking precedence when both are given; the old sink is removed
    and the handle moves to the new one. Without either, nothing changes. *)
Theorem console_level_read (s : St) :
  m (vm_ (this s)) !! "log" = None →
  ∃ s', readLoggingArgs s = Return tt s'
    ∧ records (logging s') = records (logging s)
    ∧ match console_level s with
      | Some lvl =>
          sinks (logging s') =
            (<[coutSink_ (this s) := None]> (sinks (logging s))
             ++ [Some (CoutSink lvl info dg_short_log)])%list
          ∧ sinks (logging s') !! coutSink_ (this s')
            = Some (Some (CoutSink lvl info dg_short_log))
          ∧ cerrSink_ (this s') = cerrSink_ (this s)
      | None => s' = s
      end.
Proof.
  intros Hlog. unfold console_level, is_present.
  destruct s as [a L c pc]. cbn in *.
  unfold readLoggingArgs. run.
  destruct (m (vm_ a) !! "trace"); run;
    [| destruct (m (vm_ a) !! "debug"); run ].
  all: relook; eexists; split; [reflexivity |]; cbn.
  3: by destruct L.
  all: split; [done |]; split; [done |]; split; [| by destruct a].
  all: destruct a; cbn; by rewrite lookup_app_r, Nat.sub_diag.
Qed.

(** X13: the [log] option. Without a path reading fails; with a path alone
    the file is logged to from level debug on; with a level and a path the
    level is the one named; a file that cannot be opened is an error. The
    file sink is added last, up to level fatal, in the long format. *)
Theorem log_file_read (s : St) (given_args : list string) (d : bool) :
  m (vm_ (this s)) !! "log" = Some (mkValue (any_strings given_args) d) →
  let logArgs :=
    if splitArgs_default then flat_map split given_args else given_args in
  match logArgs with
  | [] => ∃ s', readLoggingArgs s = Throw (Error "Log path must be specified") s'
  | [path] =>
      if ofstream_fail path
      then ∃ s', readLoggingArgs s =
                 Throw (Error ("Error opening log file " +:+ path +:+ " for writing.")) s'
      else ∃ s', readLoggingArgs s = Return tt s'
                 ∧ last (sinks (logging s'))
                   = Some (Some (StreamSink path debug fatal dg_long_log))
  | l0 :: path :: _ =>
      match stringToLevel l0 with
      | inl e => ∃ s', readLoggingArgs s = Throw e s'
      | inr level =>
          if ofstream_fail path
          then ∃ s', readLoggingArgs s =
                     Throw (Error ("Error opening log file " +:+ path +:+ " for writing.")) s'
          else ∃ s', readLoggingArgs s = Return tt s'
                     ∧ last (sinks (logging s'))
                       = Some (Some (StreamSink path level fatal dg_long_log))
      end
  end.
Proof.
  intros Hlog logArgs. destruct s as [a L c pc]. cbn in *.
  unfold readLoggingArgs. run.
  destruct (m (vm_ a) !! "trace"); run;
    [| destruct (m (vm_ a) !! "debug"); run ].
  all: rewrite Hlog; run; fold logArgs.
  all: destruct logArgs as [|l0 [|path rest]]; run; [by eexists | |].
  all: try (destruct (stringToLevel l0); run; [by eexists |]).
  all: destruct (ofstream_fail _); run; [by eexists |].
  all: eexists; split; [reflexivity |]; cbn; by rewrite last_snoc.
Qed.

End LoggingOptions.

(** ** Splitting of multi-valued options *)


Lemma split_tokens_nonempty (b : bool) (s : string) : split_tokens b s ≠ [].
Proof.
  revert b. induction s as [|c s IH]; intros b; cbn; [done |].
  destruct (Ascii.eqb c " "); [destruct b; [apply IH | done] |].
  by destruct (split_tokens false s).
Qed.

Lemma split_tokens_no_space (b : bool) (s : string) :
  Forall (fun t => has_space t = false) (split_tokens b s).
Proof.
  revert b. induction s as [|c s IH]; intros b; cbn; [by repeat constructor |].
  destruct (Ascii.eqb c " ") eqn:Hc.
  - destruct b; [apply IH | constructor; [done | apply IH]].
  - specialize (IH false). destruct (split_tokens false s) as [|t ts].
    + by repeat constructor; cbn; rewrite Hc.
    + apply Forall_cons in IH as [Ht Hts]. constructor; [| done].
      cbn. by rewrite Hc, Ht.
Qed.

Lemma split_whole (s : string) : has_space s = false → split s = [s].
Proof.
  unfold split. induction s as [|c s IH]; cbn; [done |].
  destruct (Ascii.eqb c " "); [done |]. cbn. intros Hs. by rewrite IH.
Qed.

Section Splitting.
Context `{Environment}.

(** X14: reading a multi-valued option with [splitArgs] returns tokens
    without spaces, and values that hold no space come back unchanged, as
    they do without [splitArgs]. *)
Theorem readOptional_splits_at_spaces (s : St) (param : string)
    (vals : list string) (d : bool) :
  m (vm_ (this s)) !! param = Some (mkValue (any_strings vals) d) →
  (∃ ret, readOptional_strings param true s = Return (Some ret) s
          ∧ Forall (fun t => has_space t = false) ret
          ∧ (vals ≠ [] → ret ≠ []))
  ∧ (Forall (fun v => has_space v = false) vals →
     readOptional_strings param true s = readOptional_strings param false s).
Proof.
  intros Hp. unfold readOptional_strings, find, get, bind, as_, ret.
  rewrite Hp. cbn. split.
  - eexists. split; [reflexivity |]. split.
    + clear Hp. induction vals as [|v vals IH]; cbn; [constructor |].
      apply Forall_app. split; [apply split_tokens_no_space | exact IH].
    + destruct vals as [|v vals]; [done |]. intros _. cbn.
      pose proof (split_tokens_nonempty false v) as Hne.
      unfold split. by destruct (split_tokens false v).
  - intros Hv. do 2 f_equal. clear Hp.
    induction Hv as [|v vals Hs _ IH]; cbn; [done |].
    by rewrite (split_whole v Hs), IH.
Qed.

End Splitting.

(** ** The format notifier *)

Section Format.
Context `{Environment}.

(** X7: a format given on the command line is checked while parsing: when
    [parseArgs] returns, its lower-case form is one of the supported
    formats. *)
Theorem command_line_format_supported (argc : Z) (argv : parsed_options)
    (s s' : St) (format : string) :
  vm_ (this s) = empty_vm →
  occurrences "format" argv = [("format", any_string format)] →
  parseArgs argc argv s = Return tt s' →
  to_lower format ∈ supportedFormats_
  ∧ m (vm_ (this s')) !! "format" = Some (mkValue (any_string format) false).
Proof.
  intros He Hocc Hp. split; [| by eapply command_line_wins].
  unfold parseArgs in Hp.
  apply bind_inv in Hp as ([] & s0 & Hargc & Hp).
  assert (s0 = s) as ->.
  { destruct (argc <? 2)%Z; [| by injection Hargc as <-].
    apply bind_inv in Hargc as (? & ? & _ & Hthrow). done. }
  apply bind_inv in Hp as ([] & s1 & Hst1 & Hp).
  apply bind_inv in Hp as ([] & s1' & Hn & _).
  apply po_store_inv in Hst1 as [Hst1 _].
  assert (fixed "format" (mkValue (any_string format) false) (vm_ (this s1)))
    as [_ Hf].
  { eapply store_once; [exact Hst1 | rewrite He; apply unset_empty | done]. }
  revert Hn. unfold notify, find, get, bind, DG_CHECK, ret, throw.
  rewrite Hf. destruct (bool_decide _) eqn:Hd; [| done].
  intros _. by apply bool_decide_eq_true in Hd.
Qed.

End Format.

(** * The main window *)


(** X15: the run button always starts exactly one run, without any check of
    the values. That run has no bounding box and no window size, a step
    size that is the same in both directions, and the output format, the
    web-service options and the stored options that the object had before:
    the window never sets them. Its geometry is polygon only for the exact
    text "Polygon". *)
Theorem run_button_starts_a_run (ui : Ui) (s : St) :
  ∃ s', on_runPushButton_clicked ui s = Return tt s'
    ∧ process_calls s' = (process_calls s ++ [this s'])%list
    ∧ bbox (this s') = None
    ∧ windowSize (this s') = None
    ∧ stepSize (this s') = Some (mkPoint (stepSizeSpinBox ui) (stepSizeSpinBox ui))
    ∧ outputFormat (this s') = outputFormat (this s)
    ∧ token (this s') = token (this s)
    ∧ credentials (this s') = credentials (this s)
    ∧ vm_ (this s') = vm_ (this s)
    ∧ (geometryType (this s') = POLYGON ↔ geometryTypeComboBox ui = "Polygon")
    ∧ (nmsCheckBox ui = false → overlap (this s') = overlap (this s)).
Proof.
  destruct s as [a L c pc]. unfold on_runPushButton_clicked, osn_process.
  unfold bind, modify, ret. cbn.
  destruct (String.eqb (modeComboBox ui) "Detect"),
    (String.eqb (modeComboBox ui) "Landcover"),
    (String.eqb (imageSourceComboBox ui) "Local Image File"),
    (pyramidCheckBox ui), (nmsCheckBox ui),
    (String.eqb (outputFormatComboBox ui) "Shapefile"),
    (producerInfoCheckBox ui), (String.eqb (processingModeComboBox ui) "GPU");
    cbn.
  all: destruct (String.eqb (geometryTypeComboBox ui) "Polygon") eqn:Hg; cbn.
  all: eexists; split; [reflexivity |]; cbn.
  all: repeat split; try done.
  all: try (intros _; by apply String.eqb_eq).
  all: try (intros Heq; apply String.eqb_neq in Hg; done).
Qed.

(** * Errors of the help display and of the service name *)

Section HelpErrors.
Context `{Environment}.

(** X16: the two errors of the help display. After the action "help", a
    topic that is no action is reported once the usage has been printed;
    after another action, a second word other than "help" (in any case) is
    reported as an invalid argument, and nothing is printed. *)
Theorem help_topic_errors (s : St) (topic : string) (d : bool) :
  m (vm_ (this s)) !! "help-topic" = Some (mkValue (any_string topic) d) →
  (action (this s) = HELP → parseAction topic = ACTION_UNKNOWN →
     ∃ s', maybeDisplayHelp s = Throw (Error "Invalid help topic specified.") s'
           ∧ cout s' = (cout s ++ [Usage (Some ACTION_UNKNOWN)])%list)
  ∧ (action (this s) ≠ HELP → to_lower topic ≠ "help" →
     ∃ s', maybeDisplayHelp s = Throw (Error ("Invalid argument: " +:+ topic)) s'
           ∧ cout s' = cout s)
  ∧ (action (this s) ≠ HELP → to_lower topic = "help" →
     ∃ s', maybeDisplayHelp s = Return true s'
           ∧ cout s' = (cout s ++ [Usage (Some (action (this s)))])%list).
Proof.
  intros Ht. destruct s as [a L c pc]. cbn in *.
  unfold maybeDisplayHelp.
  unfold readOptional_ptr, find, get, bind, ret, as_, throw, DG_CHECK, printUsage, cout_put.
  destruct (Action_eqb (action a) HELP) eqn:Hh; cbn; rewrite ?Ht; cbn.
  - split; [| split]; try (intros Ha; destruct Ha; by destruct (action a)).
    intros _ Hu. rewrite Hu. cbn. by eexists.
  - change (to_lower "help") with "help". split; [| split].
    + intros Ha. by rewrite Ha in Hh.
    + intros _ Hn. apply String.eqb_neq in Hn. rewrite Hn. cbn. by eexists.
    + intros _ Hn. rewrite Hn, String.eqb_refl. cbn. by eexists.
Qed.

(** X17: a service name that is none of dgcs, evwhs and maps-api (in any
    case) is reported before anything else of the web service is looked
    at, bounding box included; the message shows the name in lower case. *)
Theorem invalid_service_reported_first (s : St) (service : string) (d : bool) :
  well_typed (vm_ (this s)) →
  m (vm_ (this s)) !! "service" = Some (mkValue (any_string service) d) →
  service_of (to_lower service) = None →
  ∃ s', readArgs s =
        Throw (Error ("Invalid --service parameter: " +:+ to_lower service)) s'
        ∧ source (this s') = source (this s)
        ∧ cout s' = cout s
        ∧ process_calls s' = process_calls s.
Proof.
  intros Hwt Hsv Hsrc. unfold service_of in Hsrc.
  destruct s as [a L c pc]. cbn in *.
  unfold readArgs, parseService. run.
  typed Hwt "bbox"; run; rewrite Hsv; run.
  all: destruct (String.eqb (to_lower service) "dgcs"); [done |].
  all: destruct (String.eqb (to_lower service) "evwhs"); [done |].
  all: destruct (String.eqb (to_lower service) "maps-api"); [done |].
  all: run; eexists; split; [reflexivity |]; by destruct a.
Qed.

End HelpErrors.

(** * Concrete instances of the further properties *)


Lemma example_config_files_typed (f : string) (o : parsed_options) :
  @parse_config_file example_environment f = Some o → typed_options o.
Proof.
  cbn. repeat (destruct (String.eqb f _); [intros [= <-]; by repeat constructor |]).
  done.
Qed.

Lemma example_config_files_format (f : string) (o : parsed_options) :
  @parse_config_file example_environment f = Some o → occurrences "format" o = [].
Proof.
  cbn. repeat (destruct (String.eqb f _); [by intros [= <-] |]). done.
Qed.

Lemma parseArgs_well_typed_witness :
  ∃ s', @parseArgs example_environment 4 example_config_line
          (example_state example_init) = Return tt s'
        ∧ well_typed (vm_ (this s')).
Proof.
  eexists. split; [vm_compute; reflexivity |].
  apply (@parseArgs_well_typed example_environment 4 example_config_line
           (example_state example_init)).
  - apply (bool_decide_unpack _). vm_compute. exact I.
  - apply (bool_decide_unpack _). vm_compute. exact I.
  - apply (bool_decide_unpack _). vm_compute. exact I.
  - apply example_config_files_typed.
  - apply (bool_decide_unpack _). vm_compute. exact I.
  - vm_compute. reflexivity.
Defined.

Lemma unmentioned_option_keeps_default_witness :
  ∃ s', @parseArgs example_environment 4 example_config_line
          (example_state example_init) = Return tt s'
        ∧ m (vm_ (this s')) !! "format" = Some (mkValue (any_string "shp") true).
Proof.
  eexists. split; [vm_compute; reflexivity |].
  apply (@unmentioned_option_keeps_default example_environment 4
           example_config_line (example_state example_init));
    try (vm_compute; reflexivity).
  apply example_config_files_format.
Defined.

Lemma environment_beats_config_files_witness :
  ∃ s', @parseArgs example_environment_zoom 4 example_config_line
          (example_state example_init) = Return tt s'
        ∧ m (vm_ (this s')) !! "zoom" = Some (mkValue (any_int 7) false).
Proof.
  eexists. split; [vm_compute; reflexivity |].
  apply (@environment_beats_config_files example_environment_zoom 4
           example_config_line (example_state example_init));
    vm_compute; reflexivity.
Defined.

Lemma parseArgs_action_known_witness :
  ∃ s', @parseArgs example_environment 4 example_config_line
          (example_state example_init) = Return tt s'
        ∧ action (this s') ≠ ACTION_UNKNOWN.
Proof.
  eexists. split; [vm_compute; reflexivity |].
  match goal with
  | |- action (this ?s') ≠ _ =>
      destruct (@parseArgs_action_known example_environment 4 example_config_line
                  (example_state example_init) s')
        as (_ & str & d & _ & _ & Hk); [vm_compute; reflexivity | exact Hk]
  end.
Defined.

Lemma help_or_run_witness :
  ∃ s', @parseArgsAndProcess example_environment 2 [("action", any_string "help")]
          (example_state example_init) = Return tt s'
        ∧ process_calls s' = [].
Proof.
  eexists. split; [vm_compute; reflexivity |].
  match goal with
  | |- process_calls ?s' = _ =>
      destruct (@help_or_run example_environment 2 [("action", any_string "help")]
                  (example_state example_init) s')
        as [[_ Hp] | (Hn & _)]; [vm_compute; reflexivity | exact Hp |]
  end.
  exfalso. apply Hn. vm_compute. reflexivity.
Defined.

Lemma output_format_lower_case_witness :
  ∃ s', @readOutputArgs example_environment example_geojson = Return tt s'
        ∧ outputFormat (this s') = "geojson".
Proof.
  eexists. split; [vm_compute; reflexivity |].
  match goal with
  | |- outputFormat (this ?s') = _ =>
      destruct (@output_format_lower_case example_environment example_geojson s')
        as [_ Hf]; [vm_compute; reflexivity |]
  end.
  rewrite Hf. vm_compute. reflexivity.
Defined.

Lemma credentials_completed_witness :
  ∃ s', @readWebServiceArgs example_environment
          (set_this (set_bbox (Some (mkRect2d 0 0 1 1))) example_web_user)
        = Return tt s'
        ∧ credentials (this s') = "user:secret".
Proof.
  destruct (@readWebServiceArgs example_environment
              (set_this (set_bbox (Some (mkRect2d 0 0 1 1))) example_web_user))
    as [[] s'|e s'] eqn:Hr; [| vm_compute in Hr; discriminate Hr].
  exists s'. split; [reflexivity |].
  pose proof (@credentials_completed example_environment _ s' Hr) as Hc.
  assert (given (set_this (set_bbox (Some (mkRect2d 0 0 1 1))) example_web_user)
            "credentials" ≫= as_string = Some "user") as Hg
    by (vm_compute; reflexivity).
  rewrite Hg in Hc. change (has_colon "user") with false in Hc. cbv iota in Hc.
  destruct Hc as [Hc _]. rewrite Hc. vm_compute. reflexivity.
Defined.

Lemma missing_option_reported_witness :
  ∃ s', @readArgs example_environment example_image_only
        = Throw (Error "Missing required parameter --model.") s'
        ∧ process_calls s' = [].
Proof.
  destruct (@missing_option_reported example_environment example_image_only)
    as (_ & Hmodel & _).
  - apply (bool_decide_unpack _). vm_compute. exact I.
  - vm_compute. reflexivity.
  - destruct Hmodel as (s' & Hr & _ & Hp).
    + vm_compute. by eexists.
    + vm_compute. reflexivity.
    + exists s'. split; [exact Hr | exact Hp].
Defined.

Lemma web_service_needs_token_witness :
  ∃ s', @readArgs example_environment example_web_no_token
        = Throw (Error "Missing required parameter --token.") s'
        ∧ cout s' = [].
Proof.
  destruct (@web_service_needs_token example_environment example_web_no_token
              "maps-api" MAPS_API false (mkRect2d 0 0 1 1) false)
    as (s' & Hr & _ & _ & _ & Hc & _); try (vm_compute; reflexivity).
  - intros _. left. vm_compute. reflexivity.
  - exists s'. split; [exact Hr | exact Hc].
Defined.

Lemma console_level_read_witness :
  ∃ s', @readLoggingArgs example_environment example_trace_debug = Return tt s'
        ∧ sinks (logging s') = [Some (CoutSink trace info dg_short_log)].
Proof.
  destruct (@console_level_read example_environment example_trace_debug)
    as (s' & Hr & _ & Hs); [vm_compute; reflexivity |].
  exists s'. split; [exact Hr |].
  vm_compute in Hs. by destruct Hs as [Hs _].
Defined.

Lemma log_file_read_witness :
  ∃ s', @readLoggingArgs example_environment example_log = Return tt s'
        ∧ last (sinks (logging s'))
          = Some (Some (StreamSink "run.log" info fatal dg_long_log)).
Proof.
  pose proof (@log_file_read example_environment example_log ["info run.log"] false)
    as Hl.
  apply Hl. vm_compute. reflexivity.
Defined.

Lemma readOptional_splits_at_spaces_witness :
  ∃ ret, readOptional_strings "log" true example_log = Return (Some ret) example_log
         ∧ Forall (fun t => has_space t = false) ret.
Proof.
  destruct (readOptional_splits_at_spaces example_log "log" ["info run.log"] false)
    as [(ret & Hr & Hs & _) _]; [vm_compute; reflexivity |].
  exists ret. split; [exact Hr | exact Hs].
Defined.

Lemma command_line_format_supported_witness :
  ∃ s', @parseArgs example_environment 3
          [("action", any_string "detect"); ("format", any_string "KML")]
          (example_state example_init) = Return tt s'
        ∧ to_lower "KML" ∈ @supportedFormats_ example_environment.
Proof.
  eexists. split; [vm_compute; reflexivity |].
  eapply (@command_line_format_supported example_environment 3
            [("action", any_string "detect"); ("format", any_string "KML")]
            (example_state example_init) _ "KML");
    vm_compute; reflexivity.
Defined.

Lemma help_topic_errors_witness :
  ∃ s', maybeDisplayHelp
          (set_this (set_action DETECT)
             (with_options [("help-topic", any_string "scene.tif")]))
        = Throw (Error "Invalid argument: scene.tif") s'
        ∧ cout s' = [].
Proof.
  destruct (help_topic_errors
              (set_this (set_action DETECT)
                 (with_options [("help-topic", any_string "scene.tif")]))
              "scene.tif" false) as (_ & Harg & _); [vm_compute; reflexivity |].
  destruct Harg as (s' & Hr & Hc); [vm_compute; discriminate .. |].
  exists s'. split; [exact Hr | exact Hc].
Defined.

Lemma invalid_service_reported_first_witness :
  ∃ s', @readArgs example_environment
          (with_options [("service", any_string "Bing")])
        = Throw (Error "Invalid --service parameter: bing") s'
        ∧ process_calls s' = [].
Proof.
  destruct (@invalid_service_reported_first example_environment
              (with_options [("service", any_string "Bing")]) "Bing" false)
    as (s' & Hr & _ & _ & Hp); try (vm_compute; reflexivity).
  - apply (bool_decide_unpack _). vm_compute. exact I.
  - exists s'. split; [exact Hr | exact Hp].
Defined.
